(** * mpc-lib: presign round 5, Pedersen parameters, Paillier key encoding
      and the transcript hash, embedded shallowly and verified.

    Source files covered:
    - protocols/cmp/presign/presign5.go   (module [Presign])
    - the Paillier key wrapper (Bytes / fromBytes) and its key manager
      (modules [PaillierKey], [KeyManager])
    - core/pedersen/pedersen.go           (module [Pedersen])
    - the transcript hash                 (module [Transcript])

    Conventions.  Go integers are [Z] with their wrap-around written out;
    [saferith.Nat] and [saferith.Modulus] are the natural number they
    denote ([N]); byte strings are [list byte]; Go maps are [gmap]; a Go
    function that may panic returns an [outcome]. *)

From Stdlib Require Import ZArith NArith Lia Zdivisibility Zcong.
From Stdlib Require Import NArithRing.
From Stdlib.Strings Require Import Byte Ascii.
From stdpp Require Import gmap strings list fin_maps.

Local Open Scope Z_scope.

(** ** Go runtime model *)

Module Go.

(** A call either returns or panics (index or slice bounds out of range). *)
Inductive outcome (A : Type) : Type :=
| Return (a : A)
| Panic.
Arguments Return {A} a.
Arguments Panic {A}.

Definition bind {A B} (c : outcome A) (k : A -> outcome B) : outcome B :=
  match c with
  | Return a => k a
  | Panic => Panic
  end.

Declare Scope go_scope.
Delimit Scope go_scope with go.
Notation "'do' x <- c ; k" := (bind c (fun x => k))
  (at level 10, x name, c at level 100, k at level 200) : go_scope.

(** [byte(v)]: conversion of an unsigned integer to a byte keeps the low
    eight bits. *)
Definition byte_of_N (v : N) : byte :=
  match Byte.of_N (N.land v 255) with
  | Some b => b
  | None => Byte.x00
  end.

Definition byte_of_Z (v : Z) : byte := byte_of_N (Z.to_N (v mod 256)).

Definition Z_of_byte (b : byte) : Z := Z.of_N (Byte.to_N b).

(** [uint16(x)] and [uint64(x)] of a non-negative [int]. *)
Definition uint16 (x : Z) : Z := x mod 65536.
Definition uint64 (x : Z) : Z := x mod 18446744073709551616.

(** A slice is a window on a backing array: [backing] holds the array from
    the slice's first element up to its capacity, [len] says how many of
    those elements the slice exposes.  Slice expressions are checked against
    the capacity, index expressions against the length. *)
Record slice : Type := mkSlice { backing : list byte; len : nat }.

Definition cap (s : slice) : nat := length (backing s).

Definition contents (s : slice) : list byte := take (len s) (backing s).

(** A slice whose capacity equals its length. *)
Definition exact (l : list byte) : slice := mkSlice l (length l).

(** A slice holding [l] with [spare] more bytes of capacity behind it. *)
Definition with_spare (l spare : list byte) : slice :=
  mkSlice (l ++ spare) (length l).

(** [s[lo:hi]] for a slice [s]: in range iff [0 <= lo <= hi <= cap(s)]. *)
Definition reslice (s : slice) (lo hi : Z) : outcome slice :=
  if (0 <=? lo) && (lo <=? hi) && (hi <=? Z.of_nat (cap s)) then
    Return (mkSlice (drop (Z.to_nat lo) (backing s)) (Z.to_nat (hi - lo)))
  else Panic.

(** [s[i]]: in range iff [0 <= i < len(s)]. *)
Definition index (s : slice) (i : nat) : outcome byte :=
  match contents s !! i with
  | Some b => Return b
  | None => Panic
  end.

(** [binary.LittleEndian.Uint16(b)] = [b[0] | b[1]<<8]. *)
Definition LittleEndian_Uint16 (b : slice) : outcome Z :=
  (do b1 <- index b 1;
   do b0 <- index b 0;
   Return (Z.lor (Z_of_byte b0) (Z.shiftl (Z_of_byte b1) 8)))%go.

(** [binary.LittleEndian.PutUint16(b, v)] on a fresh two-byte buffer. *)
Definition LittleEndian_PutUint16 (v : Z) : list byte :=
  [byte_of_Z v; byte_of_Z (Z.shiftr v 8)].

(** [binary.BigEndian.PutUint64(b, v)] on an eight-byte buffer. *)
Definition BigEndian_PutUint64 (v : Z) : list byte :=
  [byte_of_Z (Z.shiftr v 56); byte_of_Z (Z.shiftr v 48);
   byte_of_Z (Z.shiftr v 40); byte_of_Z (Z.shiftr v 32);
   byte_of_Z (Z.shiftr v 24); byte_of_Z (Z.shiftr v 16);
   byte_of_Z (Z.shiftr v 8); byte_of_Z v].

(** [hex.EncodeToString]: two lower-case hexadecimal digits per byte. *)
Definition hexdigit (d : N) : Ascii.ascii :=
  match d with
  | 0%N => "0" | 1%N => "1" | 2%N => "2" | 3%N => "3"
  | 4%N => "4" | 5%N => "5" | 6%N => "6" | 7%N => "7"
  | 8%N => "8" | 9%N => "9" | 10%N => "a" | 11%N => "b"
  | 12%N => "c" | 13%N => "d" | 14%N => "e" | _ => "f"
  end%char.

Definition hex_EncodeToString (src : list byte) : string :=
  foldr (fun b acc =>
           String (hexdigit (N.shiftr (Byte.to_N b) 4))
             (String (hexdigit (N.land (Byte.to_N b) 15)) acc))
        EmptyString src.

(** [bytes.Buffer.Write(p)]: appends [p] and returns [len(p), nil]. *)
Definition Buffer_Write (b p : list byte) : list byte * (Z * option string) :=
  (b ++ p, (Z.of_nat (length p), None)).

(** *** Facts about the runtime model *)

Lemma to_N_byte_of_N (v : N) : Byte.to_N (byte_of_N v) = N.land v 255.
Proof.
  unfold byte_of_N. destruct (Byte.of_N (N.land v 255)) as [b|] eqn:E.
  - now apply Byte.to_of_N in E.
  - apply Byte.of_N_None_iff in E.
    change 255%N with (N.ones 8) in E. rewrite N.land_ones in E.
    pose proof (N.mod_upper_bound v (2 ^ 8) ltac:(discriminate)) as Hlt.
    change (2 ^ 8)%N with 256%N in *. change (N.ones 8) with 255%N in E. lia.
Qed.

Lemma Z_of_byte_of_Z (v : Z) : Z_of_byte (byte_of_Z v) = v mod 256.
Proof.
  unfold Z_of_byte, byte_of_Z. rewrite to_N_byte_of_N.
  change 255%N with (N.ones 8). rewrite N.land_ones.
  change (2 ^ 8)%N with 256%N.
  pose proof (Z.mod_pos_bound v 256 ltac:(lia)) as Hb.
  rewrite N2Z.inj_mod, Z2N.id by lia. change (Z.of_N 256) with 256.
  now rewrite Z.mod_mod by lia.
Qed.

Lemma Z_of_byte_range (b : byte) : 0 <= Z_of_byte b < 256.
Proof.
  unfold Z_of_byte. pose proof (Byte.to_N_bounded b). lia.
Qed.

Lemma lor_shiftl_8 (lo hi : Z) :
  0 <= lo < 256 -> 0 <= hi -> Z.lor lo (Z.shiftl hi 8) = lo + 256 * hi.
Proof.
  intros Hlo Hhi. rewrite Z.shiftl_mul_pow2 by lia. change (2 ^ 8) with 256.
  rewrite Z.lor_comm, <- Z.add_nocarry_lor; [lia|].
  apply Z.bits_inj'. intros n Hn. rewrite Z.land_spec, Z.bits_0.
  destruct (Z.ltb_spec n 8).
  - change 256 with (2 ^ 8). rewrite Z.mul_pow2_bits_low by lia. reflexivity.
  - replace (Z.testbit lo n) with false; [apply andb_false_r|].
    symmetry. destruct (Z.eq_dec lo 0) as [->|]; [apply Z.bits_0|].
    apply Z.bits_above_log2; [lia|].
    assert (Z.log2 lo < 8); [|lia]. apply Z.log2_lt_pow2; lia.
Qed.

Lemma uint16_split (v : Z) :
  v mod 256 + 256 * (Z.shiftr v 8 mod 256) = uint16 v.
Proof.
  unfold uint16. rewrite Z.shiftr_div_pow2 by lia. change (2 ^ 8) with 256.
  change 65536 with (256 * 256). rewrite Z.rem_mul_r by lia. reflexivity.
Qed.

Lemma uint16_range (v : Z) : 0 <= uint16 v < 65536.
Proof. unfold uint16. apply Z.mod_pos_bound. lia. Qed.

Lemma uint16_small (v : Z) : 0 <= v < 65536 -> uint16 v = v.
Proof. intros H. unfold uint16. now apply Z.mod_small. Qed.

Lemma length_PutUint16 (v : Z) : length (LittleEndian_PutUint16 v) = 2%nat.
Proof. reflexivity. Qed.

(** Reading back a little-endian length prefix. *)
Lemma Uint16_PutUint16 (v : Z) (rest : list byte) (n : nat) :
  (2 <= n)%nat ->
  LittleEndian_Uint16 (mkSlice (LittleEndian_PutUint16 v ++ rest) n)
  = Return (uint16 v).
Proof.
  intros Hn. unfold LittleEndian_Uint16, index, contents. simpl.
  destruct n as [|[|n]]; [lia..|]. simpl. f_equal.
  rewrite !Z_of_byte_of_Z.
  rewrite lor_shiftl_8.
  - apply uint16_split.
  - apply Z.mod_pos_bound; lia.
  - apply Z.mod_pos_bound; lia.
Qed.

(** Slicing the middle part out of a buffer laid out as [a ++ b ++ c]. *)
Lemma reslice_app (a b c : list byte) (n : nat) (lo hi : Z) :
  lo = Z.of_nat (length a) ->
  hi = Z.of_nat (length a + length b) ->
  reslice (mkSlice (a ++ b ++ c) n) lo hi
  = Return (mkSlice (b ++ c) (length b)).
Proof.
  intros -> ->. unfold reslice, cap. simpl.
  rewrite !length_app.
  replace ((0 <=? Z.of_nat (length a)) &&
           (Z.of_nat (length a) <=? Z.of_nat (length a + length b)) &&
           (Z.of_nat (length a + length b)
              <=? Z.of_nat (length a + (length b + length c))))
    with true by (symmetry; rewrite !andb_true_iff, !Z.leb_le; lia).
  rewrite Nat2Z.id, drop_app_length. do 2 f_equal. lia.
Qed.

Lemma contents_app (b c : list byte) :
  contents (mkSlice (b ++ c) (length b)) = b.
Proof. unfold contents. simpl. apply take_app_length. Qed.

Lemma reslice_beyond_cap (s : slice) (lo hi : Z) :
  Z.of_nat (cap s) < hi -> reslice s lo hi = Panic.
Proof.
  intros H. unfold reslice.
  replace (hi <=? Z.of_nat (cap s)) with false by (symmetry; apply Z.leb_gt; lia).
  now rewrite andb_false_r.
Qed.

Lemma uint16_idemp (v : Z) : uint16 (uint16 v) = uint16 v.
Proof. unfold uint16. apply Z.mod_mod. lia. Qed.

(** [reslice_app] for a backing array known to be laid out as
    [a ++ b ++ c]. *)
Lemma reslice_at (l a b c : list byte) (n : nat) (lo hi : Z) :
  l = a ++ b ++ c ->
  lo = Z.of_nat (length a) ->
  hi = Z.of_nat (length a + length b) ->
  reslice (mkSlice l n) lo hi = Return (mkSlice (b ++ c) (length b)).
Proof. intros ->. apply reslice_app. Qed.

Lemma reslice_Return (s s' : slice) (lo hi : Z) :
  reslice s lo hi = Return s' ->
  0 <= lo <= hi /\ hi <= Z.of_nat (cap s) /\ len s' = Z.to_nat (hi - lo).
Proof.
  unfold reslice.
  destruct ((0 <=? lo) && (lo <=? hi) && (hi <=? Z.of_nat (cap s))) eqn:E;
    [|discriminate].
  apply andb_true_iff in E as [E E3]. apply andb_true_iff in E as [E1 E2].
  intros [= <-]. simpl. lia.
Qed.

Lemma Uint16_Return (b : slice) (v : Z) :
  LittleEndian_Uint16 b = Return v -> (2 <= len b)%nat /\ 0 <= v < 65536.
Proof.
  unfold LittleEndian_Uint16, index.
  destruct (contents b !! 1%nat) as [b1|] eqn:E1; [|discriminate].
  destruct (contents b !! 0%nat) as [b0|] eqn:E0; [|discriminate].
  cbn [bind]. intros [= <-]. split.
  - apply lookup_lt_Some in E1. unfold contents in E1.
    rewrite length_take in E1. lia.
  - rewrite lor_shiftl_8 by (apply Z_of_byte_range || apply Z_of_byte_range).
    pose proof (Z_of_byte_range b0). pose proof (Z_of_byte_range b1). lia.
Qed.

End Go.

Import Go.

(** ** Presign round 5 (protocols/cmp/presign/presign5.go) *)

Module Presign.

(** [party.ID] is a Go string. *)
Abbreviation ID := string.

(** The sentinel errors of package [round] that the round returns or that
    the specification names, plus the errors of other packages. *)
Inductive Error : Type :=
| ErrInvalidContent
| ErrNilFields
| ErrNotEnoughMessages
| ErrDuplicateMessage
| ErrOther (msg : string).

#[global] Instance Error_eq_dec : EqDecision Error.
Proof. solve_decision. Defined.

Section Round5.

(** The elliptic-curve group ([curve.Curve], [curve.Point], [curve.Scalar])
    is an external collaborator. *)
Variable Point : Type.
Variable Scalar : Type.
(** [r.Group().NewPoint()]: the identity point. *)
Variable NewPoint : Point.
Variable IsIdentity : Point -> bool.
(** [p.Add(q)] and [k.Act(p)]. *)
Variable Add : Point -> Point -> Point.
Variable Act : Scalar -> Point -> Point.

(** ElGamal ciphertexts, transcript hashes and ZK-elog proofs. *)
Variable Ciphertext : Type.
Variable Hash : Type.
Variable ElogProof : Type.
Variable LogstarProof : Type.

(** [zkelog.Public] and [zkelog.Private].  A map read [m[k]] yields the zero
    value when [k] is absent, hence the options. *)
Record ElogPublic : Type := mkElogPublic {
  E : option Ciphertext;
  ElGamalPublic : option Point;
  Base : Point;
  Y : Point
}.

Record ElogPrivate : Type := mkElogPrivate {
  PrivY : Scalar;
  Lambda : Scalar
}.

(** [zkelog.NewProof(group, hash, public, private)]. *)
Variable NewProof : Hash -> ElogPublic -> ElogPrivate -> ElogProof.

(** The fields of the embedded earlier rounds that round 5 reads. *)
Record presign4 : Type := mkPresign4 {
  (** [r.N()]: the number of parties of the session. *)
  N : Z;
  SelfID : ID;
  (** [r.HashForID(id)] *)
  HashForID : ID -> Hash;
  KShare : Scalar;
  ElGamalKNonce : Scalar;
  ElGamalK : gmap ID Ciphertext;
  ElGamal : gmap ID Point
}.

Record presign5 : Type := mkPresign5 {
  r4 : presign4;
  (** [BigGammaShare[j]] = Γⱼ *)
  BigGammaShare : gmap ID Point;
  MessageBroadcasted : gmap ID bool
}.

Record message5 : Type := mkMessage5 { ProofLog : LogstarProof }.

Record broadcast5 : Type := mkBroadcast5 { b5_BigGammaShare : Point }.

Record broadcast6 : Type := mkBroadcast6 {
  b6_BigDeltaShare : Point;
  b6_Proof : ElogProof
}.

(** [round.Content] values by dynamic type.  A pointer content may be a
    typed nil, hence the options. *)
Inductive Content : Type :=
| CMessage5 (body : option message5)
| CBroadcast5 (body : option broadcast5)
| CBroadcast6 (body : option broadcast6)
| COther.

Record Message : Type := mkMessage {
  From : ID;
  To : ID;
  Broadcast : bool;
  MsgContent : Content
}.

(** The outbound channel [out chan<- *round.Message] and the helper's
    [r.BroadcastMessage(out, content)], which yields the channel after the
    send and the error it reports, if any. *)
Variable Chan : Type.
Variable BroadcastMessage : presign4 -> Chan -> Content -> Chan * option Error.

Record presign6 : Type := mkPresign6 {
  r5 : presign5;
  Gamma : Point;
  BigDeltaShares : gmap ID Point;
  MessageBroadcasted6 : gmap ID bool
}.

(** [round.Session] values returned by [Finalize]. *)
Inductive Session : Type :=
| SessionNil
| SessionPresign5 (r : presign5)
| SessionPresign6 (r : presign6).

(** [Number()] of a session. *)
Definition Number (s : Session) : option Z :=
  match s with
  | SessionNil => None
  | SessionPresign5 _ => Some 5
  | SessionPresign6 _ => Some 6
  end.

(** [StoreBroadcastMessage]: the receiver after the call and the error
    returned. *)
Definition StoreBroadcastMessage (r : presign5) (msg : Message)
  : presign5 * option Error :=
  match MsgContent msg with
  | CBroadcast5 (Some body) =>
      if IsIdentity (b5_BigGammaShare body) then (r, Some ErrNilFields)
      else
        let r := mkPresign5 (r4 r)
                   (<[From msg := b5_BigGammaShare body]> (BigGammaShare r))
                   (MessageBroadcasted r) in
        let r := mkPresign5 (r4 r) (BigGammaShare r)
                   (<[From msg := true]> (MessageBroadcasted r)) in
        (r, None)
  | _ => (r, Some ErrInvalidContent)
  end.

(** [StoreMessage] is a no-op. *)
Definition StoreMessage (r : presign5) (msg : Message)
  : presign5 * option Error := (r, None).

(** The loop [for _, GammaJ := range r.BigGammaShare { Gamma = Gamma.Add(GammaJ) }]
    run over the entries in the order [order]. *)
Definition sum_in_order (order : list (ID * Point)) : Point :=
  foldl (fun Gamma kv => Add Gamma kv.2) NewPoint order.

(** What [Finalize] leaves behind: the receiver, the returned session and
    error, and the outbound channel. *)
Record FinalizeResult : Type := mkFinalizeResult {
  receiver : presign5;
  session : Session;
  err : option Error;
  out_after : Chan
}.

(** [Finalize(out)].  Go leaves the iteration order of a map unspecified:
    [order] is the order in which [range r.BigGammaShare] yields the entries
    in this run, a permutation of the map's entries. *)
Definition Finalize (r : presign5) (order : list (ID * Point)) (out : Chan)
  : FinalizeResult :=
  if negb (Z.of_nat (size (MessageBroadcasted r)) =? N (r4 r) - 1) then
    mkFinalizeResult r SessionNil (Some ErrNotEnoughMessages) out
  else
    let Gamma := sum_in_order order in
    let BigDeltaShare := Act (KShare (r4 r)) Gamma in
    let proofLog :=
      NewProof (HashForID (r4 r) (SelfID (r4 r)))
        (mkElogPublic (ElGamalK (r4 r) !! SelfID (r4 r))
                      (ElGamal (r4 r) !! SelfID (r4 r))
                      Gamma BigDeltaShare)
        (mkElogPrivate (KShare (r4 r)) (ElGamalKNonce (r4 r))) in
    let '(out, e) :=
      BroadcastMessage (r4 r) out
        (CBroadcast6 (Some (mkBroadcast6 BigDeltaShare proofLog))) in
    match e with
    | Some e => mkFinalizeResult r (SessionPresign5 r) (Some e) out
    | None =>
        mkFinalizeResult r
          (SessionPresign6
             (mkPresign6 r Gamma {[SelfID (r4 r) := BigDeltaShare]} ∅))
          None out
    end.

Definition CanFinalize (r : presign5) : bool :=
  Z.of_nat (size (MessageBroadcasted r)) =? N (r4 r) - 1.

(** Γ = Σⱼ Γⱼ over the stored shares, as a fold over the map. *)
Definition sum_shares (m : gmap ID Point) : Point :=
  map_fold (fun _ P acc => Add acc P) NewPoint m.

(** *** Properties of round 5 *)

Definition Add_assoc : Prop := forall a b c, Add (Add a b) c = Add a (Add b c).
Definition Add_comm : Prop := forall a b, Add a b = Add b a.

Lemma foldl_Add_perm (l1 l2 : list (ID * Point)) :
  Add_assoc -> Add_comm -> l1 ≡ₚ l2 ->
  forall acc,
    foldl (fun G kv => Add G kv.2) acc l1 = foldl (fun G kv => Add G kv.2) acc l2.
Proof.
  intros Ha Hc Hp. induction Hp as [|x l l' _ IH|x y l|l l' l'' _ IH1 _ IH2];
    intros acc; simpl.
  - reflexivity.
  - apply IH.
  - f_equal. rewrite !Ha. f_equal. apply Hc.
  - now rewrite IH1.
Qed.

Lemma sum_in_order_perm (l1 l2 : list (ID * Point)) :
  Add_assoc -> Add_comm -> l1 ≡ₚ l2 -> sum_in_order l1 = sum_in_order l2.
Proof. intros Ha Hc Hp. unfold sum_in_order. now apply foldl_Add_perm. Qed.

Lemma foldr_shares_foldl_rev (l : list (ID * Point)) (b : Point) :
  foldr (uncurry (fun (_ : ID) P acc => Add acc P)) b l
  = foldl (fun G kv => Add G kv.2) b (rev l).
Proof.
  induction l as [|[k P] l IH]; simpl; [reflexivity|].
  rewrite foldl_app. simpl. now rewrite IH.
Qed.

Lemma sum_in_order_shares (m : gmap ID Point) (order : list (ID * Point)) :
  Add_assoc -> Add_comm -> order ≡ₚ map_to_list m ->
  sum_in_order order = sum_shares m.
Proof.
  intros Ha Hc Hp. unfold sum_shares.
  rewrite map_fold_foldr, foldr_shares_foldl_rev.
  apply sum_in_order_perm; [assumption..|].
  rewrite Hp. apply Permutation_rev.
Qed.

Lemma StoreBroadcastMessage_accepted (r : presign5) (msg : Message) :
  (StoreBroadcastMessage r msg).2 = None ->
  exists body,
    MsgContent msg = CBroadcast5 (Some body) /\
    IsIdentity (b5_BigGammaShare body) = false /\
    StoreBroadcastMessage r msg
    = (mkPresign5 (r4 r)
         (<[From msg := b5_BigGammaShare body]> (BigGammaShare r))
         (<[From msg := true]> (MessageBroadcasted r)), None).
Proof.
  unfold StoreBroadcastMessage.
  destruct (MsgContent msg) as [b|[body|]|b|]; simpl; try discriminate.
  destruct (IsIdentity (b5_BigGammaShare body)) eqn:Hid; simpl; try discriminate.
  intros _. exists body. auto.
Qed.

(** C1 (as amended): round 5 has no duplicate check.  Once a broadcast from
    sender j has been accepted, a second well-typed broadcast from j with a
    non-identity point is accepted too (no error, so not DuplicateMessage):
    it replaces BigGammaShare[j] by the new point and leaves
    MessageBroadcasted, hence the number of recorded senders, as it was. *)
Theorem StoreBroadcastMessage_second_overwrites
    (r0 : presign5) (msg1 msg2 : Message) (body2 : broadcast5) :
  (StoreBroadcastMessage r0 msg1).2 = None ->
  From msg2 = From msg1 ->
  MsgContent msg2 = CBroadcast5 (Some body2) ->
  IsIdentity (b5_BigGammaShare body2) = false ->
  let r1 := (StoreBroadcastMessage r0 msg1).1 in
  let r2 := (StoreBroadcastMessage r1 msg2).1 in
  (StoreBroadcastMessage r1 msg2).2 = None /\
  BigGammaShare r2 !! From msg2 = Some (b5_BigGammaShare body2) /\
  BigGammaShare r2 = <[From msg2 := b5_BigGammaShare body2]> (BigGammaShare r1) /\
  MessageBroadcasted r2 = MessageBroadcasted r1 /\
  size (MessageBroadcasted r2) = size (MessageBroadcasted r1).
Proof.
  intros Hacc Hfrom Hc Hid.
  destruct (StoreBroadcastMessage_accepted r0 msg1 Hacc) as (b1 & _ & _ & ->).
  simpl. unfold StoreBroadcastMessage. rewrite Hc, Hid. simpl.
  rewrite Hfrom, !insert_insert_eq, lookup_insert_eq. auto.
Qed.

(** C6: a round-5 broadcast whose BigGammaShare is the identity point is
    refused with NilFields and nothing is stored; a broadcast of the right
    content type with a non-identity point is accepted and recorded under
    its sender, the entries of the other parties being left alone. *)
Theorem StoreBroadcastMessage_identity_check
    (r : presign5) (msg : Message) (body : broadcast5) :
  MsgContent msg = CBroadcast5 (Some body) ->
  (IsIdentity (b5_BigGammaShare body) = true ->
   StoreBroadcastMessage r msg = (r, Some ErrNilFields)) /\
  (IsIdentity (b5_BigGammaShare body) = false ->
   let r' := (StoreBroadcastMessage r msg).1 in
   (StoreBroadcastMessage r msg).2 = None /\
   BigGammaShare r' !! From msg = Some (b5_BigGammaShare body) /\
   MessageBroadcasted r' !! From msg = Some true /\
   r4 r' = r4 r /\
   forall j, j <> From msg ->
     BigGammaShare r' !! j = BigGammaShare r !! j /\
     MessageBroadcasted r' !! j = MessageBroadcasted r !! j).
Proof.
  intros Hc. unfold StoreBroadcastMessage. rewrite Hc. split; intros ->; simpl.
  - reflexivity.
  - rewrite !lookup_insert_eq. repeat split; try reflexivity.
    all: now rewrite lookup_insert_ne by congruence.
Qed.

(** C4: Finalize fails with NotEnoughMessages exactly when the number of
    recorded broadcasters differs from N-1; a failing Finalize leaves the
    round-5 receiver as it was and never hands out a round-6 session (on
    NotEnoughMessages: the nil session and an untouched channel); and
    CanFinalize is true exactly when the count is N-1.  The helper's
    BroadcastMessage is assumed not to report NotEnoughMessages itself. *)
Theorem Finalize_NotEnoughMessages_iff
    (r : presign5) (order : list (ID * Point)) (out : Chan) :
  (forall h ch c, (BroadcastMessage h ch c).2 <> Some ErrNotEnoughMessages) ->
  let count := Z.of_nat (size (MessageBroadcasted r)) in
  let res := Finalize r order out in
  (err res = Some ErrNotEnoughMessages <-> count <> N (r4 r) - 1) /\
  (err res = Some ErrNotEnoughMessages ->
   receiver res = r /\ session res = SessionNil /\ out_after res = out) /\
  (err res <> None ->
   receiver res = r /\ Number (session res) <> Some 6) /\
  (CanFinalize r = true <-> count = N (r4 r) - 1).
Proof.
  intros Hb count res. subst count res. unfold Finalize, CanFinalize.
  destruct (Z.eqb_spec (Z.of_nat (size (MessageBroadcasted r))) (N (r4 r) - 1))
    as [Heq|Hne]; simpl.
  - match goal with
    | |- context [BroadcastMessage ?h ?ch ?c] =>
        pose proof (Hb h ch c) as Hb';
        destruct (BroadcastMessage h ch c) as [out' [e|]]
    end; simpl in *.
    + repeat split; try congruence; try discriminate.
    + repeat split; try congruence; try discriminate.
  - repeat split; try congruence; try discriminate.
Qed.

(** C5: a successful Finalize computes Γ as the sum of all stored
    BigGammaShare points, whatever order the map was traversed in, sets
    Δᵢ = kᵢ·Γ, broadcasts (Δᵢ, elog proof) and returns the round-6 session
    holding Γ and Δᵢ with an empty MessageBroadcasted map. *)
Theorem Finalize_success
    (r : presign5) (order : list (ID * Point)) (out : Chan) :
  Add_assoc -> Add_comm ->
  order ≡ₚ map_to_list (BigGammaShare r) ->
  err (Finalize r order out) = None ->
  let self := SelfID (r4 r) in
  let G := sum_shares (BigGammaShare r) in
  let D := Act (KShare (r4 r)) G in
  let proof :=
    NewProof (HashForID (r4 r) self)
      (mkElogPublic (ElGamalK (r4 r) !! self) (ElGamal (r4 r) !! self) G D)
      (mkElogPrivate (KShare (r4 r)) (ElGamalKNonce (r4 r))) in
  session (Finalize r order out)
  = SessionPresign6 (mkPresign6 r G {[self := D]} ∅) /\
  BroadcastMessage (r4 r) out (CBroadcast6 (Some (mkBroadcast6 D proof)))
  = (out_after (Finalize r order out), None) /\
  Number (session (Finalize r order out)) = Some 6 /\
  (forall order', order' ≡ₚ map_to_list (BigGammaShare r) ->
     Finalize r order' out = Finalize r order out).
Proof.
  intros Ha Hc Hp Hok. simpl.
  assert (Hind : forall o, o ≡ₚ map_to_list (BigGammaShare r) ->
            sum_in_order o = sum_shares (BigGammaShare r))
    by (intros o Ho; now apply sum_in_order_shares).
  assert (Hshape :
    session (Finalize r order out)
    = SessionPresign6
        (mkPresign6 r (sum_shares (BigGammaShare r))
           {[SelfID (r4 r) := Act (KShare (r4 r)) (sum_shares (BigGammaShare r))]}
           ∅) /\
    BroadcastMessage (r4 r) out
      (CBroadcast6 (Some (mkBroadcast6
         (Act (KShare (r4 r)) (sum_shares (BigGammaShare r)))
         (NewProof (HashForID (r4 r) (SelfID (r4 r)))
            (mkElogPublic (ElGamalK (r4 r) !! SelfID (r4 r))
               (ElGamal (r4 r) !! SelfID (r4 r))
               (sum_shares (BigGammaShare r))
               (Act (KShare (r4 r)) (sum_shares (BigGammaShare r))))
            (mkElogPrivate (KShare (r4 r)) (ElGamalKNonce (r4 r)))))))
    = (out_after (Finalize r order out), None)).
  { revert Hok. unfold Finalize. rewrite (Hind order Hp).
    destruct (negb _); simpl; [discriminate|].
    destruct (BroadcastMessage _ _ _) as [out' [e|]] eqn:Hbm; simpl;
      [discriminate|].
    intros _. split; reflexivity. }
  destruct Hshape as [Hs Hb]. repeat split; try assumption.
  - now rewrite Hs.
  - intros o Ho. unfold Finalize. now rewrite (Hind o Ho), (Hind order Hp).
Qed.

(** *** The rest of round 5 *)

(** [zklogstar.Empty(group)] and [proof.Verify(hash, public)]. *)
Variable LogstarEmpty : LogstarProof.
Variable PaillierCiphertext : Type.
Variable PaillierPublicKey : Type.
Variable PedersenParameters : Type.

(** [zklogstar.Public]; absent map entries read as zero values. *)
Record LogstarPublic : Type := mkLogstarPublic {
  LogC : option PaillierCiphertext;
  LogX : option Point;
  LogProver : option PaillierPublicKey;
  LogAux : option PedersenParameters
}.

Variable LogstarVerify : LogstarProof -> Hash -> LogstarPublic -> bool.

(** The maps of the embedded earlier rounds that [VerifyMessage] reads
    besides [BigGammaShare]: [r.G], [r.Paillier] and [r.Pedersen]. *)
Record earlier : Type := mkEarlier {
  G : gmap ID PaillierCiphertext;
  Paillier : gmap ID PaillierPublicKey;
  Pedersen : gmap ID PedersenParameters
}.

(** [VerifyMessage(msg)]: the error returned; the receiver is only read. *)
Definition VerifyMessage (env : earlier) (r : presign5) (msg : Message)
  : option Error :=
  let from := From msg in
  let to := To msg in
  match MsgContent msg with
  | CMessage5 (Some body) =>
      if negb (LogstarVerify (ProofLog body) (HashForID (r4 r) (From msg))
                 (mkLogstarPublic (G env !! from) (BigGammaShare r !! from)
                    (Paillier env !! from) (Pedersen env !! to)))
      then Some (ErrOther "failed to validate log* proof for BigGammaShare")
      else None
  | _ => Some ErrInvalidContent
  end.

(** [MessageContent()] and [BroadcastContent()]: the templates messages are
    decoded into. *)
Definition MessageContent (r : presign5) : Content :=
  CMessage5 (Some (mkMessage5 LogstarEmpty)).

Definition BroadcastContent (r : presign5) : Content :=
  CBroadcast5 (Some (mkBroadcast5 NewPoint)).

(** [RoundNumber()] of both contents and [Number()] of the round. *)
Definition RoundNumber (c : Content) : option Z :=
  match c with
  | CMessage5 _ | CBroadcast5 _ => Some 5
  | CBroadcast6 _ => Some 6
  | COther => None
  end.

(** Whether [StoreBroadcastMessage] takes a message: a non-nil [*broadcast5]
    whose point is not the identity. *)
Definition accepts (msg : Message) : bool :=
  match MsgContent msg with
  | CBroadcast5 (Some body) => negb (IsIdentity (b5_BigGammaShare body))
  | _ => false
  end.

(** The round after the messages [msgs] were handed to
    [StoreBroadcastMessage] one after the other. *)
Definition StoreAll (r : presign5) (msgs : list Message) : presign5 :=
  foldl (fun r msg => (StoreBroadcastMessage r msg).1) r msgs.

(** Every recorded sender is flagged [true] and has a stored share that is
    not the identity. *)
Definition recorded_ok (r : presign5) : Prop :=
  forall j b, MessageBroadcasted r !! j = Some b ->
    b = true /\
    exists P, BigGammaShare r !! j = Some P /\ IsIdentity P = false.

Lemma StoreBroadcastMessage_accepts (r : presign5) (msg : Message) :
  (StoreBroadcastMessage r msg).2 = None <-> accepts msg = true.
Proof.
  unfold StoreBroadcastMessage, accepts.
  destruct (MsgContent msg) as [b|[body|]|b|]; simpl;
    try (split; discriminate).
  destruct (IsIdentity (b5_BigGammaShare body)); simpl; split;
    congruence || discriminate.
Qed.

(** X1: The two ways [StoreBroadcastMessage] fails, and what a failure leaves
    behind. *)
Theorem StoreBroadcastMessage_errors (r : presign5) (msg : Message) :
  ((StoreBroadcastMessage r msg).2 = Some ErrInvalidContent <->
   forall body, MsgContent msg <> CBroadcast5 (Some body)) /\
  ((StoreBroadcastMessage r msg).2 = Some ErrNilFields <->
   exists body, MsgContent msg = CBroadcast5 (Some body) /\
                IsIdentity (b5_BigGammaShare body) = true) /\
  (forall e, (StoreBroadcastMessage r msg).2 = Some e ->
     (e = ErrInvalidContent \/ e = ErrNilFields) /\
     (StoreBroadcastMessage r msg).1 = r).
Proof.
  unfold StoreBroadcastMessage.
  destruct (MsgContent msg) as [b|[body|]|b|] eqn:Hc; simpl.
  1,3,4,5: repeat split; intros; try discriminate; try congruence; auto;
    try (destruct H as (body' & Hb & _); discriminate).
  all: try (injection H as <-; auto).
  destruct (IsIdentity (b5_BigGammaShare body)) eqn:Hid; simpl.
  - split; [split; [discriminate|intros H; exfalso; exact (H body eq_refl)]|].
    split; [split; [intros _; exists body; auto|reflexivity]|].
    intros e H. injection H as <-. auto.
  - split; [split; [discriminate|intros H; exfalso; exact (H body eq_refl)]|].
    split; [split; [discriminate|]|discriminate].
    intros (body' & Hb & Hid'). injection Hb as <-. congruence.
Qed.

(** X2: An accepted broadcast adds its sender to the recorded ones: the count
    grows by one for a new sender and stays for a known one. *)
Theorem StoreBroadcastMessage_count (r : presign5) (msg : Message) :
  (StoreBroadcastMessage r msg).2 = None ->
  let r' := (StoreBroadcastMessage r msg).1 in
  dom (MessageBroadcasted r') = {[From msg]} ∪ dom (MessageBroadcasted r) /\
  (MessageBroadcasted r !! From msg = None ->
   size (MessageBroadcasted r') = S (size (MessageBroadcasted r))) /\
  (is_Some (MessageBroadcasted r !! From msg) ->
   size (MessageBroadcasted r') = size (MessageBroadcasted r)).
Proof.
  intros Hok.
  destruct (StoreBroadcastMessage_accepted r msg Hok) as (body & _ & _ & ->).
  simpl. split; [apply dom_insert_L|]. split.
  - apply map_size_insert_None.
  - apply map_size_insert_Some.
Qed.

(** X3: Whether a broadcast is taken does not depend on the state of the round,
    and broadcasts of different senders can be stored in either order. *)
Theorem StoreBroadcastMessage_commute (r r' : presign5) (msg1 msg2 : Message) :
  From msg1 <> From msg2 ->
  (StoreBroadcastMessage r msg1).2 = (StoreBroadcastMessage r' msg1).2 /\
  (StoreBroadcastMessage (StoreBroadcastMessage r msg1).1 msg2).1
  = (StoreBroadcastMessage (StoreBroadcastMessage r msg2).1 msg1).1.
Proof.
  intros Hne. split.
  - unfold StoreBroadcastMessage.
    destruct (MsgContent msg1) as [b|[body|]|b|]; try reflexivity.
    destruct (IsIdentity _); reflexivity.
  - unfold StoreBroadcastMessage.
    destruct (MsgContent msg1) as [b1|[body1|]|b1|];
      destruct (MsgContent msg2) as [b2|[body2|]|b2|]; simpl; try reflexivity.
    all: try (destruct (IsIdentity (b5_BigGammaShare body1)); reflexivity).
    all: try (destruct (IsIdentity (b5_BigGammaShare body2)); reflexivity).
    destruct (IsIdentity (b5_BigGammaShare body1)),
      (IsIdentity (b5_BigGammaShare body2)); simpl; try reflexivity.
    f_equal; apply insert_insert_ne; congruence.
Qed.

(** X4: [StoreBroadcastMessage] keeps [recorded_ok]. *)
Theorem StoreBroadcastMessage_recorded_ok (r : presign5) (msg : Message) :
  recorded_ok r -> recorded_ok (StoreBroadcastMessage r msg).1.
Proof.
  intros Hinv. destruct (StoreBroadcastMessage r msg).2 as [e|] eqn:He.
  - destruct (StoreBroadcastMessage_errors r msg) as (_ & _ & H).
    destruct (H e He) as [_ ->]. exact Hinv.
  - destruct (StoreBroadcastMessage_accepted r msg He)
      as (body & _ & Hid & ->). simpl.
    intros j b. unfold recorded_ok in Hinv. simpl.
    destruct (decide (From msg = j)) as [<-|Hne].
    + rewrite !lookup_insert_eq. intros [= <-]. eauto.
    + rewrite !lookup_insert_ne by assumption. apply Hinv.
Qed.

#[local] Set Warnings "-clear-no-such-hyp".

Lemma StoreAll_app (r : presign5) (l1 l2 : list Message) :
  StoreAll r (l1 ++ l2) = StoreAll (StoreAll r l1) l2.
Proof. unfold StoreAll. apply foldl_app. Qed.

(** X5: After any sequence of deliveries, in any order and with repetitions and
    rejected messages among them, the recorded senders are the earlier ones
    plus the senders of the accepted messages; so [CanFinalize] holds exactly
    when that set has N-1 elements. *)
Theorem StoreAll_recorded (r : presign5) (msgs : list Message) :
  dom (MessageBroadcasted (StoreAll r msgs))
  = dom (MessageBroadcasted r) ∪ list_to_set (From <$> filter accepts msgs) /\
  r4 (StoreAll r msgs) = r4 r /\
  (CanFinalize (StoreAll r msgs) = true <->
   Z.of_nat (size (dom (MessageBroadcasted r)
                   ∪ list_to_set (From <$> filter accepts msgs) : gset ID))
   = N (r4 r) - 1).
Proof.
  assert (H : dom (MessageBroadcasted (StoreAll r msgs))
              = dom (MessageBroadcasted r)
                ∪ list_to_set (From <$> filter accepts msgs) /\
              r4 (StoreAll r msgs) = r4 r).
  { revert r. induction msgs as [|msg msgs IH]; intros r.
    - simpl. split; [set_solver|reflexivity].
    - change (StoreAll r (msg :: msgs))
        with (StoreAll (StoreBroadcastMessage r msg).1 msgs).
      destruct (IH (StoreBroadcastMessage r msg).1) as [-> ->].
      rewrite filter_cons.
      destruct (StoreBroadcastMessage r msg).2 as [e|] eqn:He.
      + destruct (StoreBroadcastMessage_errors r msg) as (_ & _ & Herr).
        destruct (Herr e He) as [_ Hsame]. rewrite Hsame.
        assert (Hacc : accepts msg <> true).
        { intros Hacc. apply (StoreBroadcastMessage_accepts r msg) in Hacc.
          congruence. }
        destruct (decide (accepts msg)) as [Hd|Hd]; [|done].
        exfalso. apply Hacc. now apply Is_true_true.
      + destruct (StoreBroadcastMessage_count r msg He) as (Hdom & _).
        simpl in Hdom. rewrite Hdom.
        destruct (StoreBroadcastMessage_accepted r msg He) as (b & _ & _ & Hr).
        rewrite Hr. simpl.
        apply StoreBroadcastMessage_accepts in He.
        destruct (decide (accepts msg)) as [Hd|Hd].
        * simpl. split; [set_solver|reflexivity].
        * exfalso. apply Hd. now apply Is_true_true. }
  destruct H as [Hdom Hr4]. split; [exact Hdom|]. split; [exact Hr4|].
  unfold CanFinalize. rewrite Z.eqb_eq, Hr4, <- Hdom, size_dom. reflexivity.
Qed.

(** X6: The Γ loop over the shares after a new party's share P was stored yields
    the earlier Γ plus P, whatever the orders of traversal. *)
Theorem sum_in_order_insert
    (m : gmap ID Point) (j : ID) (P : Point)
    (order order' : list (ID * Point)) :
  Add_assoc -> Add_comm ->
  m !! j = None ->
  order ≡ₚ map_to_list m ->
  order' ≡ₚ map_to_list (<[j := P]> m) ->
  sum_in_order order' = Add (sum_in_order order) P.
Proof.
  intros Ha Hc Hj Ho Ho'.
  rewrite (sum_in_order_perm order' (order ++ [(j, P)]) Ha Hc).
  - unfold sum_in_order. rewrite foldl_app. reflexivity.
  - rewrite Ho', map_to_list_insert by assumption.
    rewrite Ho. apply Permutation_cons_append.
Qed.

(** X7: [Finalize] hands out the next round exactly when the count is N-1 and
    the broadcast of (Δᵢ, proof) goes through; if the broadcast fails, its
    error is returned together with the round-5 session itself. *)
Theorem Finalize_outcome
    (r : presign5) (order : list (ID * Point)) (out : Chan) :
  let G := sum_in_order order in
  let D := Act (KShare (r4 r)) G in
  let self := SelfID (r4 r) in
  let sent :=
    BroadcastMessage (r4 r) out
      (CBroadcast6 (Some (mkBroadcast6 D
         (NewProof (HashForID (r4 r) self)
            (mkElogPublic (ElGamalK (r4 r) !! self) (ElGamal (r4 r) !! self)
               G D)
            (mkElogPrivate (KShare (r4 r)) (ElGamalKNonce (r4 r))))))) in
  (err (Finalize r order out) = None <->
   CanFinalize r = true /\ sent.2 = None) /\
  (forall e, CanFinalize r = true -> sent.2 = Some e ->
     Finalize r order out
     = mkFinalizeResult r (SessionPresign5 r) (Some e) sent.1) /\
  (CanFinalize r = false ->
   Finalize r order out
   = mkFinalizeResult r SessionNil (Some ErrNotEnoughMessages) out).
Proof.
  simpl. unfold Finalize, CanFinalize.
  destruct (Z.of_nat (size (MessageBroadcasted r)) =? N (r4 r) - 1); simpl.
  - destruct (BroadcastMessage _ _ _) as [out' [e|]]; simpl.
    + repeat split; try discriminate.
      * intros [_ H]. discriminate.
      * intros e' _ [= <-]. reflexivity.
    + repeat split; try discriminate.
  - repeat split; try discriminate. intros [H _]. discriminate.
Qed.

(** X8: The log* proof of sender j is checked against the share that
    [StoreBroadcastMessage] recorded for j: once j's broadcast of P is
    accepted, [VerifyMessage] on j's message succeeds exactly when the proof
    verifies for X = P. *)
Theorem VerifyMessage_after_store
    (env : earlier) (r : presign5) (bmsg msg : Message)
    (bbody : broadcast5) (body : message5) :
  MsgContent bmsg = CBroadcast5 (Some bbody) ->
  IsIdentity (b5_BigGammaShare bbody) = false ->
  MsgContent msg = CMessage5 (Some body) ->
  From msg = From bmsg ->
  let r' := (StoreBroadcastMessage r bmsg).1 in
  (VerifyMessage env r' msg = None <->
   LogstarVerify (ProofLog body) (HashForID (r4 r) (From msg))
     (mkLogstarPublic (G env !! From msg) (Some (b5_BigGammaShare bbody))
        (Paillier env !! From msg) (Pedersen env !! To msg)) = true) /\
  (VerifyMessage env r' msg <> None ->
   VerifyMessage env r' msg
   = Some (ErrOther "failed to validate log* proof for BigGammaShare")).
Proof.
  intros Hb Hid Hm Hfrom. simpl.
  unfold StoreBroadcastMessage, VerifyMessage. rewrite Hb, Hid, Hm. simpl.
  rewrite Hfrom, lookup_insert_eq.
  destruct (LogstarVerify _ _ _); simpl; split; try split;
    congruence || discriminate || auto.
Qed.

(** A message that is not a non-nil [*message5] is refused by
    [VerifyMessage] with InvalidContent, whatever the state. *)
Theorem VerifyMessage_invalid_content
    (env : earlier) (r : presign5) (msg : Message) :
  VerifyMessage env r msg = Some ErrInvalidContent <->
  forall body, MsgContent msg <> CMessage5 (Some body).
Proof.
  unfold VerifyMessage.
  destruct (MsgContent msg) as [[body|]|b|b|]; simpl.
  2-5: split; [intros _ body; discriminate | reflexivity].
  split.
  - destruct (negb _); discriminate.
  - intros H. exfalso. exact (H body eq_refl).
Qed.

End Round5.

(** *** A concrete session: the additive group of integers as the curve,
    three parties A (self), B and C. *)

Module Toy.

Definition IsZero (P : Z) : bool := P =? 0.

Definition NewProofZ (h : string) (pub : ElogPublic Z Z) (priv : ElogPrivate Z)
  : Z := Base Z Z pub + Y Z Z pub.

Definition round4 : presign4 Z Z Z string :=
  mkPresign4 Z Z Z string 3 "A" (fun id => id) 3 11 {["A" := 2]} {["A" := 9]}.

Definition round5 (shares : gmap ID Z) (seen : gmap ID bool)
  : presign5 Z Z Z string :=
  mkPresign5 Z Z Z string round4 shares seen.

Definition bcast5 (from : ID) (P : Z) : Message Z Z unit :=
  mkMessage Z Z unit from "" true (CBroadcast5 Z Z unit (Some (mkBroadcast5 Z P))).

Definition Store := StoreBroadcastMessage Z Z IsZero Z string Z unit.

(** An unbounded outbound channel: a send always succeeds. *)
Definition send (h : presign4 Z Z Z string) (ch : list (Content Z Z unit))
    (c : Content Z Z unit) : list (Content Z Z unit) * option Error :=
  (ch ++ [c], None).

Definition Fin :=
  Finalize Z Z 0 Z.add Z.mul Z string Z unit NewProofZ
    (list (Content Z Z unit)) send.

(** The round after A stored its own share 4 in an earlier round. *)
Definition start : presign5 Z Z Z string := round5 {["A" := 4]} ∅.

Definition afterB : presign5 Z Z Z string := (Store start (bcast5 "B" 5)).1.
Definition afterBC : presign5 Z Z Z string := (Store afterB (bcast5 "C" 6)).1.

End Toy.

(** C1, as stated, fails: B broadcasts 5 and then 7; the second call does
    not return DuplicateMessage and BigGammaShare[B] changes from 5 to 7. *)
Lemma StoreBroadcastMessage_duplicate_counterexample :
  (Toy.Store Toy.start (Toy.bcast5 "B" 5)).2 = None /\
  (Toy.Store Toy.afterB (Toy.bcast5 "B" 7)).2 <> Some ErrDuplicateMessage /\
  BigGammaShare Z Z Z string Toy.afterB !! "B" = Some 5 /\
  BigGammaShare Z Z Z string (Toy.Store Toy.afterB (Toy.bcast5 "B" 7)).1 !! "B"
  = Some 7.
Proof. vm_compute. repeat split; congruence. Qed.

Lemma StoreBroadcastMessage_second_overwrites_witness :
  (Toy.Store Toy.start (Toy.bcast5 "B" 5)).2 = None /\
  (Toy.Store Toy.afterB (Toy.bcast5 "B" 7)).2 = None /\
  BigGammaShare Z Z Z string (Toy.Store Toy.afterB (Toy.bcast5 "B" 7)).1 !! "B"
  = Some 7.
Proof.
  split; [reflexivity|].
  pose proof (StoreBroadcastMessage_second_overwrites Z Z Toy.IsZero Z string
                Z unit Toy.start (Toy.bcast5 "B" 5) (Toy.bcast5 "B" 7)
                (mkBroadcast5 Z 7) eq_refl eq_refl eq_refl eq_refl) as H.
  destruct H as (H1 & H2 & _). split; [exact H1 | exact H2].
Defined.

Lemma StoreBroadcastMessage_identity_check_witness :
  Toy.Store Toy.start (Toy.bcast5 "B" 0) = (Toy.start, Some ErrNilFields) /\
  (Toy.Store Toy.start (Toy.bcast5 "C" 6)).2 = None.
Proof.
  split.
  - apply (StoreBroadcastMessage_identity_check Z Z Toy.IsZero Z string Z unit
             Toy.start (Toy.bcast5 "B" 0) (mkBroadcast5 Z 0) eq_refl).
    reflexivity.
  - apply (StoreBroadcastMessage_identity_check Z Z Toy.IsZero Z string Z unit
             Toy.start (Toy.bcast5 "C" 6) (mkBroadcast5 Z 6) eq_refl).
    reflexivity.
Defined.

Lemma Finalize_NotEnoughMessages_iff_witness :
  err Z Z Z string _ (Toy.Fin Toy.afterB [("A", 4); ("B", 5)] []) =
    Some ErrNotEnoughMessages /\
  receiver Z Z Z string _ (Toy.Fin Toy.afterB [("A", 4); ("B", 5)] []) =
    Toy.afterB /\
  Toy.Fin Toy.afterB [("A", 4); ("B", 5)] [] =
  mkFinalizeResult Z Z Z string _ Toy.afterB (SessionNil Z Z Z string)
    (Some ErrNotEnoughMessages) [] /\
  CanFinalize Z Z Z string Toy.afterB = false /\
  CanFinalize Z Z Z string Toy.afterBC = true.
Proof.
  pose proof (Finalize_NotEnoughMessages_iff Z Z 0 Z.add Z.mul Z string Z unit
                Toy.NewProofZ _ Toy.send Toy.afterB [("A", 4); ("B", 5)] []
                ltac:(intros h ch c; discriminate)) as (Hiff & Hfail & _ & _).
  assert (Herr : err Z Z Z string _
                   (Toy.Fin Toy.afterB [("A", 4); ("B", 5)] []) =
                 Some ErrNotEnoughMessages).
  { apply Hiff. vm_compute. discriminate. }
  destruct (Hfail Herr) as (Hr & _ & _).
  split; [exact Herr|]. split; [exact Hr|]. repeat split.
Defined.

Lemma Finalize_success_witness :
  session Z Z Z string _
    (Toy.Fin Toy.afterBC (map_to_list (BigGammaShare Z Z Z string Toy.afterBC)) [])
  = SessionPresign6 Z Z Z string
      (mkPresign6 Z Z Z string Toy.afterBC 15 {["A" := 45]} ∅) /\
  Toy.Fin Toy.afterBC [("B", 5); ("C", 6); ("A", 4)] [] =
  Toy.Fin Toy.afterBC (map_to_list (BigGammaShare Z Z Z string Toy.afterBC)) [].
Proof.
  pose proof (Finalize_success Z Z 0 Z.add Z.mul Z string Z unit Toy.NewProofZ
                _ Toy.send Toy.afterBC
                (map_to_list (BigGammaShare Z Z Z string Toy.afterBC)) []
                ltac:(intros a b c; lia) ltac:(intros a b; lia)
                ltac:(reflexivity) ltac:(reflexivity))
    as (Hs & _ & _ & Hord).
  split.
  - etransitivity; [exact Hs | reflexivity].
  - apply Hord. vm_compute.
    exact (Permutation_cons_append [("C", 6); ("A", 4)] ("B", 5)).
Defined.

(** *** The concrete session, continued *)

Module More.

Definition msg5 (from to : ID) (proof : unit) : Message Z Z unit :=
  mkMessage Z Z unit from to false (CMessage5 Z Z unit (Some (mkMessage5 unit proof))).

(** A log* check that passes exactly for X = 5. *)
Definition verify5 (proof : unit) (h : string) (pub : LogstarPublic Z Z Z Z)
  : bool :=
  match LogX Z Z Z Z pub with Some 5 => true | _ => false end.

Definition env : earlier Z Z Z := mkEarlier Z Z Z ∅ ∅ ∅.

End More.

Lemma StoreBroadcastMessage_count_witness :
  size (MessageBroadcasted Z Z Z string Toy.afterB) = 1%nat /\
  size (MessageBroadcasted Z Z Z string
          (Toy.Store Toy.afterB (Toy.bcast5 "B" 7)).1) = 1%nat.
Proof.
  destruct (StoreBroadcastMessage_count Z Z Toy.IsZero Z string Z unit
              Toy.start (Toy.bcast5 "B" 5) eq_refl) as (_ & Hnew & _).
  destruct (StoreBroadcastMessage_count Z Z Toy.IsZero Z string Z unit
              Toy.afterB (Toy.bcast5 "B" 7) eq_refl) as (_ & _ & Hold).
  split.
  - exact (Hnew eq_refl).
  - etransitivity; [apply Hold; vm_compute; eauto | exact (Hnew eq_refl)].
Defined.

Lemma StoreBroadcastMessage_commute_witness :
  (Toy.Store (Toy.Store Toy.start (Toy.bcast5 "B" 5)).1 (Toy.bcast5 "C" 6)).1
  = (Toy.Store (Toy.Store Toy.start (Toy.bcast5 "C" 6)).1 (Toy.bcast5 "B" 5)).1.
Proof.
  apply (StoreBroadcastMessage_commute Z Z Toy.IsZero Z string Z unit
           Toy.start Toy.start (Toy.bcast5 "B" 5) (Toy.bcast5 "C" 6)).
  discriminate.
Defined.

Lemma StoreBroadcastMessage_recorded_ok_witness :
  recorded_ok Z Z Toy.IsZero Z string Toy.afterB.
Proof.
  apply (StoreBroadcastMessage_recorded_ok Z Z Toy.IsZero Z string Z unit
           Toy.start (Toy.bcast5 "B" 5)).
  intros j b H. vm_compute in H. discriminate H.
Defined.

Lemma sum_in_order_insert_witness :
  sum_in_order Z 0 Z.add [("B", 5); ("A", 4)]
  = sum_in_order Z 0 Z.add [("A", 4)] + 5.
Proof.
  apply (sum_in_order_insert Z 0 Z.add {["A" := 4]} "B" 5).
  - intros a b c. lia.
  - intros a b. lia.
  - reflexivity.
  - reflexivity.
  - vm_compute. apply perm_swap.
Defined.

Lemma VerifyMessage_after_store_witness :
  VerifyMessage Z Z Z string Z unit Z Z Z More.verify5 More.env Toy.afterB
    (More.msg5 "B" "A" tt) = None /\
  VerifyMessage Z Z Z string Z unit Z Z Z More.verify5 More.env Toy.start
    (More.msg5 "B" "A" tt) <> None.
Proof.
  split.
  - apply (VerifyMessage_after_store Z Z Toy.IsZero Z string Z unit Z Z Z
             More.verify5 More.env Toy.start (Toy.bcast5 "B" 5)
             (More.msg5 "B" "A" tt) (mkBroadcast5 Z 5) (mkMessage5 unit tt)
             eq_refl eq_refl eq_refl eq_refl).
    reflexivity.
  - discriminate.
Defined.

End Presign.

(** ** saferith naturals and their byte encoding

    [saferith.Nat] and [saferith.Modulus] are modelled by the natural number
    they denote.  [Bytes()] / [MarshalBinary()] give the big-endian encoding,
    [SetBytes] / [UnmarshalBinary] read one back; neither reports an error.
    Where the padding of a [saferith.Nat] matters, the number is kept with
    its announced length ([Nat], below). *)

Module Saferith.

(** The bytes of [n], least significant first; [fuel] bounds the number of
    bytes produced. *)
Fixpoint le_bytes (fuel : nat) (n : N) : list byte :=
  match fuel with
  | O => []
  | S fuel =>
      if (n =? 0)%N then []
      else byte_of_N n :: le_bytes fuel (N.shiftr n 8)
  end.

(** [n.Bytes()]: big-endian, no leading zero byte. *)
Definition Bytes (n : N) : list byte :=
  reverse (le_bytes (N.to_nat (N.size n)) n).

(** [SetBytes(data)]: the number a big-endian byte string denotes. *)
Definition SetBytes (data : list byte) : N :=
  foldl (fun acc b => (256 * acc + Byte.to_N b)%N) 0%N data.

Definition MarshalBinary (n : N) : list byte * option string :=
  (Bytes n, None).

Definition UnmarshalBinary (data : list byte) : N * option string :=
  (SetBytes data, None).

(** *** Round trip of the encoding *)

Definition le_value (l : list byte) : N :=
  foldr (fun b acc => (Byte.to_N b + 256 * acc)%N) 0%N l.

Lemma SetBytes_reverse (l : list byte) : SetBytes (reverse l) = le_value l.
Proof.
  unfold SetBytes, le_value. induction l as [|b l IH]; simpl; [reflexivity|].
  rewrite reverse_cons, foldl_app. simpl. rewrite IH. lia.
Qed.

Lemma le_value_le_bytes (fuel : nat) (n : N) :
  (n < 2 ^ N.of_nat fuel)%N -> le_value (le_bytes fuel n) = n.
Proof.
  revert n. induction fuel as [|fuel IH]; intros n Hn.
  - simpl in *. lia.
  - simpl. destruct (N.eqb_spec n 0) as [->|Hnz]; [reflexivity|].
    simpl. rewrite to_N_byte_of_N. change 255%N with (N.ones 8).
    rewrite N.land_ones, N.shiftr_div_pow2. change (2 ^ 8)%N with 256%N.
    rewrite IH.
    + pose proof (N.div_mod n 256 ltac:(discriminate)). lia.
    + rewrite Nat2N.inj_succ, N.pow_succ_r' in Hn.
      apply N.Div0.div_lt_upper_bound.
      pose proof (N.pow_nonzero 2 (N.of_nat fuel) ltac:(discriminate)). lia.
Qed.

Lemma SetBytes_Bytes (n : N) : SetBytes (Bytes n) = n.
Proof.
  unfold Bytes. rewrite SetBytes_reverse. apply le_value_le_bytes.
  rewrite N2Nat.id. apply N.size_gt.
Qed.

(** [FillBytes(buf)] on a buffer of [w] bytes: the [w] low-order bytes of
    [n], big-endian, zero-padded on the left. *)
Fixpoint le_fixed (w : nat) (n : N) : list byte :=
  match w with
  | O => []
  | S w => byte_of_N n :: le_fixed w (N.shiftr n 8)
  end.

Definition FillBytes (w : nat) (n : N) : list byte := reverse (le_fixed w n).

Lemma length_le_fixed (w : nat) (n : N) : length (le_fixed w n) = w.
Proof. revert n. induction w as [|w IH]; intros n; simpl; [|rewrite IH]; reflexivity. Qed.

Lemma length_FillBytes (w : nat) (n : N) : length (FillBytes w n) = w.
Proof. unfold FillBytes. now rewrite length_reverse, length_le_fixed. Qed.

Lemma le_value_le_fixed (w : nat) (n : N) :
  le_value (le_fixed w n) = (n mod 256 ^ N.of_nat w)%N.
Proof.
  revert n. induction w as [|w IH]; intros n.
  - simpl. now rewrite N.mod_1_r.
  - cbn [le_fixed le_value foldr]. fold (le_value (le_fixed w (N.shiftr n 8))).
    rewrite IH, to_N_byte_of_N. change 255%N with (N.ones 8).
    rewrite N.land_ones, N.shiftr_div_pow2. change (2 ^ 8)%N with 256%N.
    rewrite Nat2N.inj_succ, N.pow_succ_r'.
    rewrite N.Div0.mod_mul_r. lia.
Qed.

(** Reading a fixed-width encoding back gives the value modulo 256^w, so
    the value itself when it fits. *)
Lemma SetBytes_FillBytes (w : nat) (n : N) :
  SetBytes (FillBytes w n) = (n mod 256 ^ N.of_nat w)%N.
Proof. unfold FillBytes. rewrite SetBytes_reverse. apply le_value_le_fixed. Qed.

(** *** Naturals with their announced length

    A [saferith.Nat] as it is held: its value and its announced length in
    bits.  [Bytes()] and [MarshalBinary()] give the value big-endian in
    [(announced + 7) / 8] bytes, padded with zero bytes on the left;
    [SetBytes] and [UnmarshalBinary] read a byte string and announce eight
    bits per byte. *)
Record Nat : Type := mkNat { value : N; announced : nat }.

(** saferith keeps the value below 2^announced. *)
Definition well_formed (z : Nat) : Prop :=
  (value z < 2 ^ N.of_nat (announced z))%N.

Definition byteLen (z : Nat) : nat := (announced z + 7) / 8.

Definition Nat_Bytes (z : Nat) : list byte :=
  FillBytes (byteLen z) (value z).

Definition Nat_SetBytes (data : list byte) : Nat :=
  mkNat (SetBytes data) (8 * length data).

Definition Nat_MarshalBinary (z : Nat) : list byte * option string :=
  (Nat_Bytes z, None).

Definition Nat_UnmarshalBinary (data : list byte) : Nat * option string :=
  (Nat_SetBytes data, None).

(** [Modulus.UnmarshalBinary(data)]: reads the bytes and precomputes the
    modulus, which panics ("Modulus is empty") when the value is zero, in
    particular on empty input. *)
Definition Modulus_UnmarshalBinary (data : list byte)
  : outcome (N * option string) :=
  if (SetBytes data =? 0)%N then Panic else Return (SetBytes data, None).

Lemma length_Nat_Bytes (z : Nat) : length (Nat_Bytes z) = byteLen z.
Proof. apply length_FillBytes. Qed.

Lemma Nat_SetBytes_Bytes (z : Nat) :
  well_formed z ->
  Nat_SetBytes (Nat_Bytes z) = mkNat (value z) (8 * byteLen z).
Proof.
  intros Hwf. unfold Nat_SetBytes. rewrite length_Nat_Bytes. f_equal.
  unfold Nat_Bytes. rewrite SetBytes_FillBytes. apply N.mod_small.
  unfold well_formed in Hwf. eapply N.lt_le_trans; [exact Hwf|].
  change 256%N with (2 ^ 8)%N. rewrite <- N.pow_mul_r.
  apply N.pow_le_mono_r; [discriminate|].
  unfold byteLen.
  pose proof (Nat.div_mod (announced z + 7) 8 ltac:(discriminate)) as Hd.
  pose proof (Nat.mod_upper_bound (announced z + 7) 8 ltac:(discriminate)).
  lia.
Qed.

Lemma Modulus_UnmarshalBinary_Bytes (n : N) :
  (n <> 0)%N -> Modulus_UnmarshalBinary (Bytes n) = Return (n, None).
Proof.
  intros Hn. unfold Modulus_UnmarshalBinary. rewrite SetBytes_Bytes.
  now destruct (N.eqb_spec n 0).
Qed.

End Saferith.

(** ** The Paillier key wrapper and its key manager *)

Module Paillier.

(** Go [error] values are identified with their message. *)
Abbreviation error := string.

(** Modelled from the spec: [pailliercore.PublicKey] and the [arith.Modulus]
    it hands out are not in the source tree.  By the data model a public key
    is its modulus N, and N travels as its big-endian bytes. *)
Record PublicKey : Type := mkPublicKey { pk_n : N }.

(** Modelled from the spec: [pailliercore.NewPublicKey(n)], the public key
    with modulus n. *)
Definition NewPublicKey (n : N) : PublicKey := mkPublicKey n.

Section Key.

(** [pailliercore.SecretKey] with its binary marshalling is a collaborator:
    [MarshalBinary] yields bytes and an error, [UnmarshalBinary] fills a
    fresh secret key or fails. *)
Variable SecretKey : Type.
Variable SecretKey_MarshalBinary : SecretKey -> list byte * option error.
Variable SecretKey_UnmarshalBinary : list byte -> SecretKey + error.

Record PaillierKey : Type := mkPaillierKey {
  secretKey : option SecretKey;
  publicKey : option PublicKey
}.

(** [PaillierKey{}] *)
Definition zeroKey : PaillierKey := mkPaillierKey None None.

(** [Private()] *)
Definition Private (k : PaillierKey) : bool :=
  match secretKey k with Some _ => true | None => false end.

(** [Bytes()]: the encoded bytes and the error.  A key without public part
    dereferences a nil pointer. *)
Definition Bytes (k : PaillierKey) : outcome (list byte * option error) :=
  match publicKey k with
  | None => Panic
  | Some pk =>
      let '(nb, err) := Saferith.MarshalBinary (pk_n pk) in
      match err with
      | Some e => Return ([], Some e)
      | None =>
          let buf := [] in
          let nl := LittleEndian_PutUint16 (uint16 (Z.of_nat (length nb))) in
          let buf := buf ++ nl in
          let buf := buf ++ nb in
          match secretKey k with
          | None => Return (buf, None)
          | Some sk =>
              let '(skb, err) := SecretKey_MarshalBinary sk in
              match err with
              | Some e => Return ([], Some e)
              | None =>
                  let sl :=
                    LittleEndian_PutUint16 (uint16 (Z.of_nat (length skb))) in
                  let buf := buf ++ sl in
                  let buf := buf ++ skb in
                  Return (buf, None)
              end
          end
      end
  end.

(** [fromBytes(data)].  [nl] and [sl] are [uint16], so are the sums used as
    slice bounds. *)
Definition fromBytes (data : slice) : outcome (PaillierKey * option error) :=
  (do nlb <- reslice data 0 2;
   do nl <- LittleEndian_Uint16 nlb;
   if nl =? 0 then Return (zeroKey, None)
   else
     do nb <- reslice data 2 (uint16 (nl + 2));
     let '(n, err) := Saferith.UnmarshalBinary (contents nb) in
     match err with
     | Some e => Return (zeroKey, Some e)
     | None =>
         let pk := NewPublicKey n in
         do slb <- reslice data (uint16 (nl + 2)) (uint16 (nl + 4));
         do sl <- LittleEndian_Uint16 slb;
         if sl =? 0 then Return (mkPaillierKey None (Some (NewPublicKey n)), None)
         else
           do sb <- reslice data (uint16 (nl + 4)) (uint16 (nl + 4 + sl));
           match SecretKey_UnmarshalBinary (contents sb) with
           | inr e => Return (zeroKey, Some e)
           | inl sk => Return (mkPaillierKey (Some sk) (Some pk), None)
           end
     end)%go.

(** *** The key manager *)

(** [keyopts.Options] and the keystore's [Get(opts)]. *)
Variable Options : Type.

Definition GetKey (keystore_Get : Options -> slice * option error)
    (opts : Options) : outcome (PaillierKey * option error) :=
  let '(decoded, err) := keystore_Get opts in
  match err with
  | Some _ => Return (zeroKey, None)
  | None =>
      (do res <- fromBytes decoded;
       match res.2 with
       | Some _ => Return (zeroKey, None)
       | None => Return (res.1, None)
       end)%go
  end.

(** *** Encoding and decoding of public-only keys *)

Definition publicOnly (n : N) : PaillierKey :=
  mkPaillierKey None (Some (NewPublicKey n)).

Lemma Bytes_publicOnly (n : N) :
  Bytes (publicOnly n)
  = Return (LittleEndian_PutUint16
              (uint16 (Z.of_nat (length (Saferith.Bytes n))))
            ++ Saferith.Bytes n, None).
Proof. reflexivity. Qed.

(** The first half of [fromBytes] on the encoding of a public-only key: the
    length prefix and the modulus are read back. *)
Lemma fromBytes_publicOnly_prefix (n : N) (spare : list byte) :
  let nb := Saferith.Bytes n in
  let nl := Z.of_nat (length nb) in
  (0 < length nb)%nat -> nl + 4 < 65536 ->
  fromBytes
    (with_spare (LittleEndian_PutUint16 (uint16 nl) ++ nb) spare)
  = (do slb <- reslice
                 (mkSlice (LittleEndian_PutUint16 (uint16 nl) ++ nb ++ spare)
                          (2 + length nb))
                 (nl + 2) (nl + 4);
     do sl <- LittleEndian_Uint16 slb;
     if sl =? 0 then Return (publicOnly n, None)
     else
       do sb <- reslice
                  (mkSlice (LittleEndian_PutUint16 (uint16 nl) ++ nb ++ spare)
                           (2 + length nb))
                  (uint16 (nl + 4)) (uint16 (nl + 4 + sl));
       match SecretKey_UnmarshalBinary (contents sb) with
       | inr e => Return (zeroKey, Some e)
       | inl sk => Return (mkPaillierKey (Some sk) (Some (NewPublicKey n)), None)
       end)%go.
Proof.
  intros nb nl Hpos Hlt. unfold fromBytes, with_spare.
  rewrite <- app_assoc, length_app, length_PutUint16.
  set (data := mkSlice _ _).
  assert (H1 : reslice data 0 2
               = Return (mkSlice (LittleEndian_PutUint16 (uint16 nl)
                                    ++ nb ++ spare) 2)).
  { apply (reslice_app [] (LittleEndian_PutUint16 (uint16 nl)) (nb ++ spare));
      reflexivity. }
  rewrite H1. cbn [bind].
  rewrite Uint16_PutUint16 by lia. cbn [bind].
  rewrite uint16_idemp, (uint16_small nl) by (subst nl; lia).
  destruct (Z.eqb_spec nl 0) as [H0|_]; [subst nl; lia|].
  rewrite !uint16_small by (subst nl; lia).
  assert (H2 : reslice data 2 (nl + 2)
               = Return (mkSlice (nb ++ spare) (length nb))).
  { apply (reslice_app (LittleEndian_PutUint16 (uint16 nl)) nb spare).
    - reflexivity.
    - rewrite length_PutUint16. subst nl. lia. }
  rewrite H2. cbn [bind]. rewrite contents_app.
  unfold Saferith.UnmarshalBinary. subst nb. rewrite Saferith.SetBytes_Bytes.
  reflexivity.
Qed.

(** Without two spare bytes of capacity behind the encoding, the read of
    the secret-key length is out of range. *)
Lemma fromBytes_publicOnly_panics (n : N) (spare : list byte) :
  let nb := Saferith.Bytes n in
  (0 < length nb)%nat -> Z.of_nat (length nb) + 4 < 65536 ->
  (length spare < 2)%nat ->
  fromBytes
    (with_spare
       (LittleEndian_PutUint16 (uint16 (Z.of_nat (length nb))) ++ nb) spare)
  = Panic.
Proof.
  intros nb Hpos Hlt Hspare. subst nb.
  rewrite (fromBytes_publicOnly_prefix n spare Hpos Hlt).
  rewrite reslice_beyond_cap; [reflexivity|].
  unfold cap. cbn [backing]. rewrite !length_app, length_PutUint16. lia.
Qed.

(** With two zero bytes of spare capacity the decoder reads them as an
    absent secret key and returns the public key. *)
Lemma fromBytes_publicOnly_zero_spare (n : N) (rest : list byte) :
  let nb := Saferith.Bytes n in
  (0 < length nb)%nat -> Z.of_nat (length nb) + 4 < 65536 ->
  fromBytes
    (with_spare
       (LittleEndian_PutUint16 (uint16 (Z.of_nat (length nb))) ++ nb)
       (LittleEndian_PutUint16 0 ++ rest))
  = Return (publicOnly n, None).
Proof.
  intros nb Hpos Hlt. subst nb.
  rewrite (fromBytes_publicOnly_prefix n _ Hpos Hlt).
  set (nb := Saferith.Bytes n) in *.
  set (nl := Z.of_nat (length nb)) in *.
  assert (H3 : reslice
                 (mkSlice (LittleEndian_PutUint16 (uint16 nl) ++ nb ++
                           LittleEndian_PutUint16 0 ++ rest) (2 + length nb))
                 (nl + 2) (nl + 4)
               = Return (mkSlice (LittleEndian_PutUint16 0 ++ rest) 2)).
  { rewrite (app_assoc _ nb).
    apply (reslice_app (LittleEndian_PutUint16 (uint16 nl) ++ nb)
             (LittleEndian_PutUint16 0) rest);
      rewrite length_app, length_PutUint16; subst nl; simpl; lia. }
  rewrite H3. cbn [bind]. rewrite Uint16_PutUint16 by lia. reflexivity.
Qed.

(** C3 at a failing input: the public-only key with N = 15 encodes to the
    three bytes 01 00 0f; decoding them from a slice of capacity three
    panics on [data[nl+2 : nl+4]]. *)
Theorem fromBytes_Bytes_publicOnly_out_of_range :
  Bytes (publicOnly 15) = Return ([x01; x00; x0f], None) /\
  fromBytes (exact [x01; x00; x0f]) = Panic.
Proof. split; reflexivity. Qed.

(** *** GetKey drops errors *)

Lemma GetKey_keystore_error (get : Options -> slice * option error)
    (opts : Options) (e : error) :
  (get opts).2 = Some e -> GetKey get opts = Return (zeroKey, None).
Proof.
  unfold GetKey. destruct (get opts) as [decoded err]. simpl.
  now intros ->.
Qed.

Lemma GetKey_decode_error (get : Options -> slice * option error)
    (opts : Options) (k : PaillierKey) (e : error) :
  (get opts).2 = None ->
  fromBytes (get opts).1 = Return (k, Some e) ->
  GetKey get opts = Return (zeroKey, None).
Proof.
  unfold GetKey. destruct (get opts) as [decoded err]. simpl.
  intros -> ->. reflexivity.
Qed.

(** C2 at a failing input: on a keystore whose [Get] fails, [GetKey]
    returns the zero key together with a nil error. *)
Theorem GetKey_swallows_keystore_error (opts : Options) :
  GetKey (fun _ => (exact [], Some "keystore: key not found"%string)) opts
  = Return (zeroKey, None).
Proof. reflexivity. Qed.

(** *** The rest of the key wrapper *)

(** [crypto/sha256]. *)
Variable sha256 : list byte -> list byte.

(** [ParamN()] and [Modulus()]: both read the modulus through the public
    key pointer. *)
Definition ParamN (k : PaillierKey) : outcome N :=
  match publicKey k with
  | None => Panic
  | Some pk => Return (pk_n pk)
  end.

Definition Modulus (k : PaillierKey) : outcome N := ParamN k.

(** [PublicKey()] *)
Definition PublicKeyOf (k : PaillierKey) : PaillierKey :=
  mkPaillierKey None (publicKey k).

(** [SKI()].  [Bytes()] of a modulus is never a nil slice, so the nil test
    never fires. *)
Definition SKI (k : PaillierKey) : outcome (list byte) :=
  (do n <- ParamN k;
   let pbs := Saferith.Bytes n in
   Return (sha256 pbs))%go.

(** [fromBytes] looks at the backing array only, never at the length of the
    slice it is given. *)
Lemma fromBytes_len (l : list byte) (n n' : nat) :
  fromBytes (mkSlice l n) = fromBytes (mkSlice l n').
Proof. reflexivity. Qed.

(** X9: Decoding the encoding of a key that has a secret part gives the key
    back, from a slice of any capacity, as long as the secret key
    marshalling round-trips, both parts are non-empty and the offsets fit
    sixteen bits. *)
Theorem fromBytes_Bytes_private
    (n : N) (sk : SecretKey) (skb spare : list byte) :
  let k := mkPaillierKey (Some sk) (Some (NewPublicKey n)) in
  let nb := Saferith.Bytes n in
  SecretKey_MarshalBinary sk = (skb, None) ->
  SecretKey_UnmarshalBinary skb = inl sk ->
  (0 < length nb)%nat -> (0 < length skb)%nat ->
  Z.of_nat (length nb + length skb) + 4 < 65536 ->
  exists enc,
    Bytes k = Return (enc, None) /\
    enc = LittleEndian_PutUint16 (uint16 (Z.of_nat (length nb))) ++ nb
          ++ LittleEndian_PutUint16 (uint16 (Z.of_nat (length skb))) ++ skb /\
    fromBytes (with_spare enc spare) = Return (k, None).
Proof.
  intros k nb Hm Hu Hnb Hskb Hlen.
  set (nl := Z.of_nat (length nb)). set (sl := Z.of_nat (length skb)).
  exists (LittleEndian_PutUint16 (uint16 nl) ++ nb
          ++ LittleEndian_PutUint16 (uint16 sl) ++ skb).
  split; [|split; [reflexivity|]].
  - unfold Bytes, k. cbn [publicKey secretKey NewPublicKey pk_n].
    unfold Saferith.MarshalBinary. rewrite Hm. cbn.
    fold nb. fold nl. fold sl. now rewrite <- !app_assoc.
  - unfold with_spare.
    rewrite (fromBytes_len _ _
               (length (LittleEndian_PutUint16 (uint16 nl) ++ nb))).
    replace ((LittleEndian_PutUint16 (uint16 nl) ++ nb
              ++ LittleEndian_PutUint16 (uint16 sl) ++ skb) ++ spare)
      with ((LittleEndian_PutUint16 (uint16 nl) ++ nb)
            ++ (LittleEndian_PutUint16 (uint16 sl) ++ skb ++ spare))
      by (now rewrite <- !app_assoc).
    change (mkSlice ((LittleEndian_PutUint16 (uint16 nl) ++ nb) ++
                     LittleEndian_PutUint16 (uint16 sl) ++ skb ++ spare)
              (length (LittleEndian_PutUint16 (uint16 nl) ++ nb)))
      with (with_spare (LittleEndian_PutUint16 (uint16 nl) ++ nb)
              (LittleEndian_PutUint16 (uint16 sl) ++ skb ++ spare)).
    subst nl nb.
    rewrite (fromBytes_publicOnly_prefix n _ Hnb) by lia.
    set (nb := Saferith.Bytes n) in *. set (nl := Z.of_nat (length nb)) in *.
    set (L := LittleEndian_PutUint16 (uint16 nl) ++ nb
              ++ LittleEndian_PutUint16 (uint16 sl) ++ skb ++ spare).
    rewrite (reslice_at L (LittleEndian_PutUint16 (uint16 nl) ++ nb)
               (LittleEndian_PutUint16 (uint16 sl)) (skb ++ spare)
               _ (nl + 2) (nl + 4))
      by (subst L nl; rewrite <- ?app_assoc, ?length_app, ?length_PutUint16;
          reflexivity || lia).
    cbn [bind]. rewrite Uint16_PutUint16 by (rewrite length_PutUint16; lia).
    cbn [bind]. rewrite uint16_idemp, (uint16_small sl) by (subst sl; lia).
    destruct (Z.eqb_spec sl 0) as [H0|_]; [subst sl; lia|].
    rewrite !uint16_small by (subst nl sl; lia).
    rewrite (reslice_at L
               (LittleEndian_PutUint16 (uint16 nl) ++ nb
                ++ LittleEndian_PutUint16 (uint16 sl)) skb spare
               _ (nl + 4) (nl + 4 + sl))
      by (subst L nl sl; rewrite <- ?app_assoc, ?length_app, ?length_PutUint16;
          reflexivity || lia).
    cbn [bind]. rewrite contents_app, Hu. reflexivity.
Qed.

(** X10: The edges of [fromBytes]: with fewer than two bytes of capacity it
    panics, and on a zero length prefix it returns the zero key with a nil
    error, whatever follows. *)
Theorem fromBytes_edges (data : slice) :
  ((cap data < 2)%nat -> fromBytes data = Panic) /\
  (forall rest, backing data = x00 :: x00 :: rest ->
     fromBytes data = Return (zeroKey, None)).
Proof.
  split.
  - intros Hcap. unfold fromBytes.
    rewrite reslice_beyond_cap by lia. reflexivity.
  - intros rest Hb. destruct data as [l n]. simpl in Hb. subst l.
    unfold fromBytes.
    rewrite (reslice_at _ [] [x00; x00] rest n 0 2) by reflexivity.
    reflexivity.
Qed.

(** X11: [PublicKey()] drops the secret part and nothing else: the result is not
    private, has the same modulus and the same SKI, and its encoding is a
    prefix of the key's encoding. *)
Theorem PublicKeyOf_spec (k : PaillierKey) :
  Private (PublicKeyOf k) = false /\
  ParamN (PublicKeyOf k) = ParamN k /\
  SKI (PublicKeyOf k) = SKI k /\
  (forall enc, Bytes k = Return (enc, None) ->
     exists pub rest,
       Bytes (PublicKeyOf k) = Return (pub, None) /\ enc = pub ++ rest).
Proof.
  repeat split. intros enc. unfold Bytes, PublicKeyOf. simpl.
  destruct (publicKey k) as [pk|]; [|discriminate].
  unfold Saferith.MarshalBinary. simpl.
  destruct (secretKey k) as [sk|].
  - destruct (SecretKey_MarshalBinary sk) as [skb [e|]]; [discriminate|].
    intros [= <-]. eexists _, _. split; [reflexivity|].
    rewrite <- app_assoc. reflexivity.
  - intros [= <-]. eexists _, []. split; [reflexivity|].
    now rewrite app_nil_r.
Qed.

(** X12: [GetKey] never reports an error: if it returns at all, the error is
    nil, and the key is the zero key whenever the keystore or the decoder
    failed. *)
Theorem GetKey_never_errors (get : Options -> slice * option error)
    (opts : Options) :
  (GetKey get opts = Panic \/ exists k, GetKey get opts = Return (k, None)) /\
  (forall k e, GetKey get opts = Return (k, e) ->
     e = None /\
     (((get opts).2 <> None \/
       exists k' e', fromBytes (get opts).1 = Return (k', Some e')) ->
      k = zeroKey)).
Proof.
  unfold GetKey. destruct (get opts) as [decoded [e0|]]; simpl.
  - split; [right; eauto|]. intros k e [= <- <-]. auto.
  - destruct (fromBytes decoded) as [[k' [e'|]]|]; simpl.
    + split; [right; eauto|]. intros k e [= <- <-]. auto.
    + split; [right; eauto|]. intros k e [= <- <-]. split; [reflexivity|].
      intros [H|(k'' & e'' & H)]; [congruence|discriminate].
    + split; [left; reflexivity|]. discriminate.
Qed.

(** X13: A key with a secret part whose encoding sits in the keystore (in a
    slice of any capacity) is what [GetKey] returns. *)
Theorem GetKey_private
    (get : Options -> slice * option error) (opts : Options)
    (n : N) (sk : SecretKey) (skb enc spare : list byte) :
  let k := mkPaillierKey (Some sk) (Some (NewPublicKey n)) in
  SecretKey_MarshalBinary sk = (skb, None) ->
  SecretKey_UnmarshalBinary skb = inl sk ->
  (0 < length (Saferith.Bytes n))%nat -> (0 < length skb)%nat ->
  Z.of_nat (length (Saferith.Bytes n) + length skb) + 4 < 65536 ->
  Bytes k = Return (enc, None) ->
  get opts = (with_spare enc spare, None) ->
  GetKey get opts = Return (k, None).
Proof.
  intros k Hm Hu Hnb Hskb Hlen Henc Hget.
  destruct (fromBytes_Bytes_private n sk skb spare Hm Hu Hnb Hskb Hlen)
    as (enc' & Henc' & _ & Hdec).
  fold k in Henc'. rewrite Henc in Henc'. injection Henc' as <-.
  unfold GetKey. rewrite Hget, Hdec. reflexivity.
Qed.

(** *** Importing and generating keys *)

(** The keystore's [Import(keyID, payload, opts)], acting on the keystore
    state, and [pailliercore.ValidateN]. *)
Variable Keystore : Type.
Variable keystore_Import :
  Keystore -> string -> list byte -> Options -> Keystore * option error.
Variable ValidateN : N -> option error.

(** The [raw interface{}] argument of [ImportKey] by dynamic type. *)
Inductive Raw : Type :=
| RawBytes (raw : slice)
| RawKey (raw : PaillierKey)
| RawOther.

(** What a manager call leaves behind: the keystore, the returned key (a nil
    interface is [None]) and the error. *)
Record ManagerResult : Type := mkManagerResult {
  keystore_after : Keystore;
  key_out : option PaillierKey;
  err_out : option error
}.

(** [ImportKey(raw, opts)] *)
Definition ImportKey (ks : Keystore) (raw : Raw) (opts : Options)
  : outcome ManagerResult :=
  (do res <- match raw with
             | RawBytes raw => fromBytes raw
             | RawKey raw => Return (raw, None)
             | RawOther => Return (zeroKey, None)
             end;
   match res.2 with
   | Some e => Return (mkManagerResult ks (Some zeroKey) (Some e))
   | None =>
       let key := res.1 in
       do n <- ParamN key;
       match ValidateN n with
       | Some _ =>
           Return (mkManagerResult ks None (Some "invalid Paillier key"%string))
       | None =>
           do kb <- Bytes key;
           match kb.2 with
           | Some e => Return (mkManagerResult ks None (Some e))
           | None =>
               do ski <- SKI key;
               let keyID := hex_EncodeToString ski in
               match keystore_Import ks keyID kb.1 opts with
               | (ks, Some _) =>
                   Return (mkManagerResult ks None
                             (Some "failed to import key"%string))
               | (ks, None) => Return (mkManagerResult ks (Some key) None)
               end
           end
       end
   end)%go.

(** [GenerateKey(opts)]; [generated] is the pair [pailliercore.KeyGen]
    produced in this run. *)
Definition GenerateKey (ks : Keystore) (generated : PublicKey * SecretKey)
    (opts : Options) : outcome ManagerResult :=
  let '(pk, sk) := generated in
  let key := mkPaillierKey (Some sk) (Some pk) in
  (do encoded <- Bytes key;
   match encoded.2 with
   | Some e => Return (mkManagerResult ks (Some zeroKey) (Some e))
   | None =>
       do ski <- SKI key;
       let keyID := hex_EncodeToString ski in
       match keystore_Import ks keyID encoded.1 opts with
       | (ks, Some e) => Return (mkManagerResult ks (Some zeroKey) (Some e))
       | (ks, None) => Return (mkManagerResult ks (Some key) None)
       end
   end)%go.

(** X14: Importing the encoding of a key with a secret part decodes it and
    stores the very same bytes under the hex form of the key's SKI. *)
Theorem ImportKey_encoded_private
    (ks : Keystore) (opts : Options)
    (n : N) (sk : SecretKey) (skb enc spare : list byte) :
  let k := mkPaillierKey (Some sk) (Some (NewPublicKey n)) in
  let keyID := hex_EncodeToString (sha256 (Saferith.Bytes n)) in
  SecretKey_MarshalBinary sk = (skb, None) ->
  SecretKey_UnmarshalBinary skb = inl sk ->
  (0 < length (Saferith.Bytes n))%nat -> (0 < length skb)%nat ->
  Z.of_nat (length (Saferith.Bytes n) + length skb) + 4 < 65536 ->
  Bytes k = Return (enc, None) ->
  ValidateN n = None ->
  ImportKey ks (RawBytes (with_spare enc spare)) opts
  = match keystore_Import ks keyID enc opts with
    | (ks', Some _) =>
        Return (mkManagerResult ks' None (Some "failed to import key"%string))
    | (ks', None) => Return (mkManagerResult ks' (Some k) None)
    end.
Proof.
  intros k keyID Hm Hu Hnb Hskb Hlen Henc Hval.
  destruct (fromBytes_Bytes_private n sk skb spare Hm Hu Hnb Hskb Hlen)
    as (enc' & Henc' & _ & Hdec).
  fold k in Henc', Hdec. rewrite Henc in Henc'. injection Henc' as <-.
  unfold ImportKey. rewrite Hdec. cbn [bind snd fst].
  unfold ParamN, k at 1. cbn [publicKey NewPublicKey pk_n bind].
  rewrite Hval, Henc. cbn [bind snd fst]. reflexivity.
Qed.

(** X15: Whenever [ImportKey] returns an error it returns no usable key (nil or
    the zero key), and the keystore is untouched unless the error is the
    keystore's own import failure. *)
Theorem ImportKey_errors
    (ks : Keystore) (raw : Raw) (opts : Options) (res : ManagerResult) :
  ImportKey ks raw opts = Return res ->
  err_out res <> None ->
  (key_out res = None \/ key_out res = Some zeroKey) /\
  (keystore_after res = ks \/
   err_out res = Some "failed to import key"%string).
Proof.
  unfold ImportKey.
  destruct (match raw with
            | RawBytes raw0 => fromBytes raw0
            | RawKey raw0 => Return (raw0, None)
            | RawOther => Return (zeroKey, None)
            end) as [[key [e|]]|]; cbn [bind snd fst]; [| |discriminate].
  { intros [= <-] _. simpl. auto. }
  destruct (ParamN key) as [n|]; cbn [bind]; [|discriminate].
  destruct (ValidateN n); [intros [= <-] _; simpl; auto|].
  destruct (Bytes key) as [[kb [e|]]|]; cbn [bind snd fst]; [| |discriminate].
  { intros [= <-] _. simpl. auto. }
  destruct (SKI key) as [ski|]; cbn [bind]; [|discriminate].
  destruct (keystore_Import _ _ _ _) as [ks' [e|]].
  - intros [= <-] _. simpl. auto.
  - intros [= <-]. simpl. congruence.
Qed.

(** X16: A blob that starts with a zero length prefix, or a value that is
    neither bytes nor a key, makes [ImportKey] panic: the zero key has no
    public part to validate. *)
Theorem ImportKey_zero_key_panics
    (ks : Keystore) (opts : Options) (n : nat) (rest : list byte) :
  ImportKey ks (RawBytes (mkSlice (x00 :: x00 :: rest) n)) opts = Panic /\
  ImportKey ks RawOther opts = Panic /\
  ImportKey ks (RawKey zeroKey) opts = Panic.
Proof.
  repeat split. unfold ImportKey.
  destruct (fromBytes_edges (mkSlice (x00 :: x00 :: rest) n)) as [_ H].
  rewrite (H rest eq_refl). reflexivity.
Qed.

(** X17: [GenerateKey] stores the encoding of the generated key under the hex
    form of its SKI and returns the key; a keystore failure is returned to
    the caller together with the zero key. *)
Theorem GenerateKey_outcome
    (ks : Keystore) (pk : PublicKey) (sk : SecretKey) (opts : Options)
    (skb : list byte) :
  let key := mkPaillierKey (Some sk) (Some pk) in
  let nb := Saferith.Bytes (pk_n pk) in
  let enc := LittleEndian_PutUint16 (uint16 (Z.of_nat (length nb))) ++ nb
             ++ LittleEndian_PutUint16 (uint16 (Z.of_nat (length skb)))
             ++ skb in
  let keyID := hex_EncodeToString (sha256 nb) in
  SecretKey_MarshalBinary sk = (skb, None) ->
  GenerateKey ks (pk, sk) opts
  = match keystore_Import ks keyID enc opts with
    | (ks', Some e) => Return (mkManagerResult ks' (Some zeroKey) (Some e))
    | (ks', None) => Return (mkManagerResult ks' (Some key) None)
    end.
Proof.
  intros key nb enc keyID Hm. unfold GenerateKey, Bytes, SKI, ParamN.
  cbn [publicKey secretKey]. unfold Saferith.MarshalBinary. rewrite Hm.
  cbn [bind snd fst]. subst enc keyID nb.
  rewrite app_nil_l, <- !app_assoc. reflexivity.
Qed.

End Key.

(** *** A concrete key manager: secret keys as their blob, an in-memory
    keystore that keeps every import, the identity as digest *)

Module Toy.

Definition marshal (sk : list byte) : list byte * option error := (sk, None).
Definition unmarshal (b : list byte) : list byte + error := inl b.
Definition digest (l : list byte) : list byte := l.
Definition validate (n : N) : option error :=
  if (n <? 2)%N then Some "modulus too small"%string else None.

Definition store : Type := list (string * list byte).
Definition import (ks : store) (id : string) (payload : list byte) (o : unit)
  : store * option error := ((id, payload) :: ks, None).

(** The key with N = 15 and secret blob 03 05, and its encoding. *)
Definition key : PaillierKey (list byte) :=
  mkPaillierKey _ (Some [x03; x05]) (Some (NewPublicKey 15)).
Definition enc : list byte := [x01; x00; x0f; x02; x00; x03; x05].

Definition fromB := fromBytes (list byte) unmarshal.
Definition get (o : unit) : slice * option error := (exact enc, None).
Definition Import := ImportKey (list byte) marshal unmarshal unit digest store import validate.
Definition Generate := GenerateKey (list byte) marshal unit digest store import.

End Toy.

Lemma fromBytes_Bytes_private_witness :
  Bytes (list byte) Toy.marshal Toy.key = Return (Toy.enc, None) /\
  Toy.fromB (exact Toy.enc) = Return (Toy.key, None).
Proof.
  assert (H1 : (0 < length (Saferith.Bytes 15))%nat) by (vm_compute; lia).
  assert (H2 : (0 < length [x03; x05])%nat) by (vm_compute; lia).
  assert (H3 : Z.of_nat (length (Saferith.Bytes 15) + length [x03; x05]) + 4
               < 65536) by (vm_compute; reflexivity).
  destruct (fromBytes_Bytes_private (list byte) Toy.marshal Toy.unmarshal
              15 [x03; x05] [x03; x05] [] eq_refl eq_refl H1 H2 H3)
    as (enc & Henc & Heq & Hdec).
  subst enc. split; [exact Henc | exact Hdec].
Defined.

Lemma GetKey_private_witness :
  GetKey (list byte) Toy.unmarshal unit Toy.get tt = Return (Toy.key, None).
Proof.
  apply (GetKey_private (list byte) Toy.marshal Toy.unmarshal unit Toy.get tt
           15 [x03; x05] [x03; x05] Toy.enc []); try reflexivity;
    vm_compute; lia.
Defined.

Lemma ImportKey_encoded_private_witness :
  Toy.Import [] (RawBytes _ (exact Toy.enc)) tt
  = Return (mkManagerResult _ _ [("0f"%string, Toy.enc)] (Some Toy.key) None).
Proof.
  etransitivity.
  - apply (ImportKey_encoded_private (list byte) Toy.marshal Toy.unmarshal
             unit Toy.digest Toy.store Toy.import Toy.validate [] tt
             15 [x03; x05] [x03; x05] Toy.enc []); try reflexivity;
      vm_compute; lia.
  - reflexivity.
Defined.

Lemma ImportKey_errors_witness :
  Toy.Import [] (RawKey _ (mkPaillierKey _ None (Some (NewPublicKey 1)))) tt
  = Return (mkManagerResult _ _ [] None (Some "invalid Paillier key"%string)) /\
  keystore_after _ _
    (mkManagerResult (list byte) Toy.store [] None
       (Some "invalid Paillier key"%string)) = [].
Proof.
  split; [reflexivity|].
  destruct (ImportKey_errors (list byte) Toy.marshal Toy.unmarshal
              unit Toy.digest Toy.store Toy.import Toy.validate []
              (RawKey _ (mkPaillierKey _ None (Some (NewPublicKey 1)))) tt
              (mkManagerResult _ _ [] None (Some "invalid Paillier key"%string))
              eq_refl ltac:(discriminate)) as [_ [H|H]].
  - exact H.
  - discriminate H.
Defined.

Lemma GenerateKey_outcome_witness :
  Toy.Generate [] (NewPublicKey 15, [x03; x05]) tt
  = Return (mkManagerResult _ _ [("0f"%string, Toy.enc)] (Some Toy.key) None).
Proof.
  etransitivity.
  - apply (GenerateKey_outcome (list byte) Toy.marshal unit Toy.digest
             Toy.store Toy.import [] (NewPublicKey 15) [x03; x05] tt
             [x03; x05] eq_refl).
  - reflexivity.
Defined.

End Paillier.

(** ** Pedersen parameters (core/pedersen/pedersen.go) *)

Module Pedersen.

Inductive Error : Type :=
| ErrNilFields
| ErrSEqualT
| ErrNotValidModN.

(** Modelled from the spec: [arith.IsValidNatModN] is not in the source
    tree.  A value is in the unit group mod N when it lies in [1, N-1] and
    is coprime to N. *)
Definition IsInUnitGroup (n a : N) : bool :=
  ((1 <=? a) && (a <=? n - 1) && (N.gcd a n =? 1))%N.

(** Modelled from the spec: [arith.IsValidNatModN(N, ints...)], true when
    every argument is in the unit group modulo N. *)
Definition IsValidNatModN (n : N) (ints : list N) : bool :=
  forallb (IsInUnitGroup n) ints.

(** [saferith]'s [ModMul] and [ModInverse]. *)
Definition ModMul (x y n : N) : N := ((x * y) mod n)%N.

Definition ModInverse (x n : N) : N :=
  Z.to_N (Z.invmod (Z.of_N x) (Z.of_N n)).

(** Modelled from the spec: [arith.Modulus.ExpI] is not in the source tree.
    It computes base^exp mod N for a signed exponent; for a negative
    exponent the base is inverted modulo N first. *)
Definition ExpI (n base : N) (exp : Z) : N :=
  if exp <? 0 then (ModInverse base n ^ Z.to_N (- exp) mod n)%N
  else (base ^ Z.to_N exp mod n)%N.

(** A [Parameters] value built by [New]: the three fields are present. *)
Record Parameters : Type := New { n : N; s : N; t : N }.

(** [ValidateParameters(n, s, t)]; [None] arguments are nil pointers, the
    result [None] is the nil error. *)
Definition ValidateParameters (n s t : option N) : option Error :=
  match n, s, t with
  | Some n, Some s, Some t =>
      if negb (IsValidNatModN n [s; t]) then Some ErrNotValidModN
      else if (s =? t)%N then Some ErrSEqualT
      else None
  | _, _, _ => Some ErrNilFields
  end.

(** [Commit(x, y)] = s^x t^y mod N *)
Definition Commit (p : Parameters) (x y : Z) : N :=
  let sx := ExpI (n p) (s p) x in
  let ty := ExpI (n p) (t p) y in
  ModMul sx ty (n p).

(** [Verify(a, b, e, S, T)]; the arguments [S] and [T] are written [S'] and
    [T']. *)
Definition Verify (p : Parameters) (a b e : option Z) (S' T' : option N)
  : bool :=
  match a, b, S', T', e with
  | Some a, Some b, Some S', Some T', Some e =>
      let nMod := n p in
      if negb (IsValidNatModN nMod [S'; T']) then false
      else
        let sa := ExpI (n p) (s p) a in
        let tb := ExpI (n p) (t p) b in
        let lhs := ModMul sa tb nMod in
        let te := ExpI (n p) T' e in
        let rhs := ModMul te S' nMod in
        (lhs =? rhs)%N
  | _, _, _, _, _ => false
  end.

(** Modelled from the spec: [arith.Modulus] with its binary marshalling is
    not in the source tree.  By the wire format N travels as its big-endian
    bytes; a modulus announces its exact bit length, so these are the bytes
    of N without a leading zero byte. *)
Definition Modulus_MarshalBinary (n : N) : list byte * option string :=
  Saferith.MarshalBinary n.

(** Modelled from the spec: [arith.Modulus.UnmarshalBinary], reading the
    big-endian bytes of N back through [saferith.Modulus.UnmarshalBinary],
    which panics when the bytes denote zero. *)
Definition Modulus_UnmarshalBinary (data : list byte)
  : outcome (N * option string) :=
  Saferith.Modulus_UnmarshalBinary data.

(** A [Parameters] value as it is held in memory: the numbers N, s and t
    of [values], and the announced lengths, in bits, of the [saferith.Nat]s
    [s] and [t], which their [MarshalBinary] pads to. *)
Record Held : Type :=
  Hold { values : Parameters; s_announced : nat; t_announced : nat }.

Definition held_s (p : Held) : Saferith.Nat :=
  Saferith.mkNat (s (values p)) (s_announced p).

Definition held_t (p : Held) : Saferith.Nat :=
  Saferith.mkNat (t (values p)) (t_announced p).

(** The assignments [p.n = n], [p.s = &s] and [p.t = &t]. *)
Definition set_n (p : Held) (n' : N) : Held :=
  Hold (New n' (s (values p)) (t (values p))) (s_announced p) (t_announced p).

Definition set_s (p : Held) (s' : Saferith.Nat) : Held :=
  Hold (New (n (values p)) (Saferith.value s') (t (values p)))
       (Saferith.announced s') (t_announced p).

Definition set_t (p : Held) (t' : Saferith.Nat) : Held :=
  Hold (New (n (values p)) (s (values p)) (Saferith.value t'))
       (s_announced p) (Saferith.announced t').

(** [MarshalBiinary()] *)
Definition MarshalBiinary (p : Held) : list byte * option string :=
  let '(nb, err) := Modulus_MarshalBinary (n (values p)) in
  match err with
  | Some e => ([], Some e)
  | None =>
      let '(sb, err) := Saferith.Nat_MarshalBinary (held_s p) in
      match err with
      | Some e => ([], Some e)
      | None =>
          let '(tb, err) := Saferith.Nat_MarshalBinary (held_t p) in
          match err with
          | Some e => ([], Some e)
          | None =>
              let nlb := LittleEndian_PutUint16 (uint16 (Z.of_nat (length nb))) in
              let slb := LittleEndian_PutUint16 (uint16 (Z.of_nat (length sb))) in
              let tlb := LittleEndian_PutUint16 (uint16 (Z.of_nat (length tb))) in
              let buf := [] in
              let buf := buf ++ nlb in
              let buf := buf ++ nb in
              let buf := buf ++ slb in
              let buf := buf ++ sb in
              let buf := buf ++ tlb in
              let buf := buf ++ tb in
              (buf, None)
          end
      end
  end.

(** [UnmarshalBiinary(data)] on receiver [p]: the receiver after the call
    and the error.  The offsets are [uint16] sums; all six slice
    expressions are evaluated before the modulus is read. *)
Definition UnmarshalBiinary (p : Held) (data : slice)
  : outcome (Held * option string) :=
  (do nlb <- reslice data 0 2;
   do nl <- LittleEndian_Uint16 nlb;
   do nb <- reslice data 2 (uint16 (2 + nl));
   do slb <- reslice data (uint16 (2 + nl)) (uint16 (2 + nl + 2));
   do sl <- LittleEndian_Uint16 slb;
   do sb <- reslice data (uint16 (2 + nl + 2)) (uint16 (2 + nl + 2 + sl));
   do tlb <- reslice data (uint16 (2 + nl + 2 + sl))
                          (uint16 (2 + nl + 2 + sl + 2));
   do tl <- LittleEndian_Uint16 tlb;
   do tb <- reslice data (uint16 (2 + nl + 2 + sl + 2))
                         (uint16 (2 + nl + 2 + sl + 2 + tl));
   do decoded <- Modulus_UnmarshalBinary (contents nb);
   let '(n', err) := decoded in
   match err with
   | Some e => Return (p, Some e)
   | None =>
       let p := set_n p n' in
       let '(s', err) := Saferith.Nat_UnmarshalBinary (contents sb) in
       match err with
       | Some e => Return (p, Some e)
       | None =>
           let p := set_s p s' in
           let '(t', err) := Saferith.Nat_UnmarshalBinary (contents tb) in
           match err with
           | Some e => Return (p, Some e)
           | None => Return (set_t p t', None)
           end
       end
   end)%go.


(** *** Validation *)

(** [a] is in the unit group modulo [n]. *)
Definition InUnitGroup (n a : N) : Prop :=
  (1 <= a <= n - 1 /\ N.gcd a n = 1)%N.

Lemma IsInUnitGroup_spec (n a : N) :
  IsInUnitGroup n a = true <-> InUnitGroup n a.
Proof.
  unfold IsInUnitGroup, InUnitGroup.
  rewrite !andb_true_iff, !N.leb_le, N.eqb_eq. tauto.
Qed.

Lemma IsValidNatModN_pair (n a b : N) :
  IsValidNatModN n [a; b] = true <-> InUnitGroup n a /\ InUnitGroup n b.
Proof.
  unfold IsValidNatModN. simpl.
  rewrite andb_true_r, andb_true_iff, !IsInUnitGroup_spec. tauto.
Qed.

(** C7: ValidateParameters reports NilFields when n, s or t is nil;
    otherwise NotInUnitGroup when s or t is outside [1, n-1] or not coprime
    to n; otherwise SEqualsT when s = t; otherwise no error.  So
    validate(N, s, s) is SEqualsT for a unit s, and validate(N, 0, t) is
    NotInUnitGroup. *)
Theorem ValidateParameters_cases (n s t : option N) :
  (n = None \/ s = None \/ t = None ->
   ValidateParameters n s t = Some ErrNilFields) /\
  (forall n' s' t', n = Some n' -> s = Some s' -> t = Some t' ->
     (~ (InUnitGroup n' s' /\ InUnitGroup n' t') ->
      ValidateParameters n s t = Some ErrNotValidModN) /\
     (InUnitGroup n' s' -> InUnitGroup n' t' -> s' = t' ->
      ValidateParameters n s t = Some ErrSEqualT) /\
     (InUnitGroup n' s' -> InUnitGroup n' t' -> s' <> t' ->
      ValidateParameters n s t = None)) /\
  (forall N s', InUnitGroup N s' ->
     ValidateParameters (Some N) (Some s') (Some s') = Some ErrSEqualT) /\
  (forall N t',
     ValidateParameters (Some N) (Some 0%N) (Some t') = Some ErrNotValidModN).
Proof.
  split; [|split; [|split]].
  - intros [Hn|[Hs|Ht]]; destruct n, s, t; try discriminate; reflexivity.
  - intros n' s' t' -> -> ->. unfold ValidateParameters.
    destruct (IsValidNatModN n' [s'; t']) eqn:Hv; simpl.
    + apply IsValidNatModN_pair in Hv.
      destruct (N.eqb_spec s' t'); repeat split; intros; tauto || congruence.
    + assert (~ (InUnitGroup n' s' /\ InUnitGroup n' t'))
        by (intros Hu; apply IsValidNatModN_pair in Hu; congruence).
      repeat split; intros; tauto.
  - intros N s' Hs. unfold ValidateParameters.
    rewrite (proj2 (IsValidNatModN_pair N s' s')) by tauto. simpl.
    now rewrite N.eqb_refl.
  - intros N t'. reflexivity.
Qed.

Lemma ValidateParameters_cases_witness :
  ValidateParameters (Some 15%N) (Some 2%N) (Some 2%N) = Some ErrSEqualT /\
  ValidateParameters (Some 15%N) (Some 0%N) (Some 4%N) = Some ErrNotValidModN /\
  ValidateParameters (Some 15%N) (Some 3%N) (Some 4%N) = Some ErrNotValidModN /\
  ValidateParameters (Some 15%N) (Some 2%N) (Some 4%N) = None /\
  ValidateParameters (Some 15%N) None (Some 4%N) = Some ErrNilFields.
Proof.
  pose proof (ValidateParameters_cases (Some 15%N) (Some 2%N) (Some 2%N))
    as (_ & _ & Hss & H0).
  pose proof (ValidateParameters_cases (Some 15%N) (Some 3%N) (Some 4%N))
    as (_ & H34 & _).
  pose proof (ValidateParameters_cases (Some 15%N) (Some 2%N) (Some 4%N))
    as (_ & H24 & _).
  pose proof (ValidateParameters_cases (Some 15%N) None (Some 4%N))
    as (Hnil & _).
  assert (U2 : InUnitGroup 15 2) by (apply IsInUnitGroup_spec; reflexivity).
  assert (U4 : InUnitGroup 15 4) by (apply IsInUnitGroup_spec; reflexivity).
  assert (U3 : ~ InUnitGroup 15 3)
    by (intros Hu; apply IsInUnitGroup_spec in Hu; discriminate).
  repeat apply conj.
  - apply Hss, U2.
  - apply H0.
  - apply (H34 _ _ _ eq_refl eq_refl eq_refl). tauto.
  - apply (H24 _ _ _ eq_refl eq_refl eq_refl); [exact U2 | exact U4 | discriminate].
  - apply Hnil. right. left. reflexivity.
Defined.

(** *** Verification of openings *)

(** Congruence modulo [n]. *)
Definition congruent (n x y : N) : Prop := (x mod n = y mod n)%N.

(** The positive and the negative part of a signed exponent. *)
Definition pos_part (x : Z) : N := Z.to_N x.
Definition neg_part (x : Z) : N := Z.to_N (- x).

(** s^a t^b ≡ S T^e (mod N) for signed exponents, with every negative power
    moved to the other side of the congruence. *)
Definition opening_holds (p : Parameters) (a b e : Z) (S' T' : N) : Prop :=
  congruent (n p)
    (s p ^ pos_part a * t p ^ pos_part b * T' ^ neg_part e)
    (S' * T' ^ pos_part e * s p ^ neg_part a * t p ^ neg_part b).

#[local] Instance congruent_equiv (n : N) : Equivalence (congruent n).
Proof.
  unfold congruent. split.
  - intros x. reflexivity.
  - intros x y H. now symmetry.
  - intros x y z H1 H2. now rewrite H1.
Qed.

#[local] Instance congruent_mul (n : N) :
  Proper (congruent n ==> congruent n ==> congruent n) N.mul.
Proof.
  intros x x' Hx y y' Hy. unfold congruent in *.
  rewrite (N.Div0.mul_mod x y), (N.Div0.mul_mod x' y'), Hx, Hy. reflexivity.
Qed.

Lemma congruent_mod (n x : N) : congruent n (x mod n) x.
Proof. unfold congruent. apply N.Div0.mod_mod. Qed.

Lemma congruent_eq (n x y : N) : congruent n x y <-> (x mod n = y mod n)%N.
Proof. reflexivity. Qed.

#[local] Opaque congruent.

Lemma congruent_pow (n x y k : N) :
  congruent n x y -> congruent n (x ^ k) (y ^ k).
Proof.
  intros H. induction k as [|k IH] using N.peano_ind.
  - reflexivity.
  - rewrite !N.pow_succ_r'. now apply congruent_mul.
Qed.

Lemma gcd_N2Z (x y : N) : Z.gcd (Z.of_N x) (Z.of_N y) = Z.of_N (N.gcd x y).
Proof. destruct x, y; reflexivity. Qed.

Lemma InUnitGroup_modulus (n x : N) : InUnitGroup n x -> (2 <= n)%N.
Proof. unfold InUnitGroup. lia. Qed.

Lemma ModInverse_spec (n x : N) :
  InUnitGroup n x -> congruent n (ModInverse x n * x) 1.
Proof.
  intros Hu. pose proof (InUnitGroup_modulus n x Hu) as Hn.
  destruct Hu as [_ Hg]. apply congruent_eq. unfold ModInverse.
  apply N2Z.inj. rewrite !N2Z.inj_mod, N2Z.inj_mul.
  rewrite Z2N.id.
  - rewrite Z.invmod_coprime.
    + change (Z.of_N 1) with 1. rewrite Z.mod_1_l by lia. reflexivity.
    + lia.
    + unfold Z.coprime. rewrite gcd_N2Z, Hg. reflexivity.
  - unfold Z.invmod. apply Z.mod_pos_bound. lia.
Qed.

(** What [ExpI] computes, without mentioning inverses. *)
Lemma ExpI_spec (n x : N) (k : Z) :
  InUnitGroup n x ->
  congruent n (ExpI n x k * x ^ neg_part k) (x ^ pos_part k).
Proof.
  intros Hu. unfold ExpI, neg_part, pos_part.
  destruct (Z.ltb_spec k 0) as [Hneg|Hpos].
  - rewrite congruent_mod. rewrite <- N.pow_mul_l.
    rewrite (congruent_pow n _ 1 _ (ModInverse_spec n x Hu)).
    rewrite N.pow_1_l. replace (Z.to_N k) with 0%N by lia. reflexivity.
  - rewrite congruent_mod. replace (Z.to_N (- k)) with 0%N by lia.
    rewrite N.pow_0_r, N.mul_1_r. reflexivity.
Qed.

(** Powers of units can be cancelled. *)
Lemma unit_pow_cancel (n x k y z : N) :
  InUnitGroup n x ->
  congruent n (y * x ^ k) (z * x ^ k) -> congruent n y z.
Proof.
  intros Hu H.
  assert (Hinv : congruent n (x ^ k * ModInverse x n ^ k) 1).
  { rewrite <- N.pow_mul_l, (N.mul_comm x).
    rewrite (congruent_pow n _ 1 _ (ModInverse_spec n x Hu)).
    now rewrite N.pow_1_l. }
  rewrite <- (N.mul_1_r y), <- (N.mul_1_r z), <- Hinv, !N.mul_assoc.
  now rewrite H.
Qed.

Lemma Verify_true_iff (p : Parameters) (a b e : Z) (S' T' : N) :
  InUnitGroup (n p) (s p) -> InUnitGroup (n p) (t p) ->
  Verify p (Some a) (Some b) (Some e) (Some S') (Some T') = true <->
  InUnitGroup (n p) S' /\ InUnitGroup (n p) T' /\ opening_holds p a b e S' T'.
Proof.
  intros Hs Ht. unfold Verify.
  destruct (IsValidNatModN (n p) [S'; T']) eqn:Hv; simpl.
  2:{ split; [discriminate|]. intros (HS & HT & _).
      rewrite (proj2 (IsValidNatModN_pair _ _ _)) in Hv by tauto.
      discriminate. }
  apply IsValidNatModN_pair in Hv. destruct Hv as [HS HT].
  cbv zeta. rewrite N.eqb_eq. unfold ModMul, opening_holds.
  pose proof (ExpI_spec (n p) (s p) a Hs) as Ea.
  pose proof (ExpI_spec (n p) (t p) b Ht) as Eb.
  pose proof (ExpI_spec (n p) T' e HT) as Ee.
  set (sa := ExpI (n p) (s p) a) in *.
  set (tb := ExpI (n p) (t p) b) in *.
  set (te := ExpI (n p) T' e) in *.
  rewrite <- (congruent_eq (n p) (sa * tb) (te * S')).
  assert (HL : congruent (n p)
                 (sa * tb * (s p ^ neg_part a * t p ^ neg_part b * T' ^ neg_part e))
                 (s p ^ pos_part a * t p ^ pos_part b * T' ^ neg_part e)).
  { rewrite <- Ea, <- Eb.
    replace (sa * tb * (s p ^ neg_part a * t p ^ neg_part b * T' ^ neg_part e))%N
      with (sa * s p ^ neg_part a * (tb * t p ^ neg_part b) * T' ^ neg_part e)%N
      by ring.
    reflexivity. }
  assert (HR : congruent (n p)
                 (te * S' * (s p ^ neg_part a * t p ^ neg_part b * T' ^ neg_part e))
                 (S' * T' ^ pos_part e * s p ^ neg_part a * t p ^ neg_part b)).
  { rewrite <- Ee.
    replace (te * S' * (s p ^ neg_part a * t p ^ neg_part b * T' ^ neg_part e))%N
      with (S' * (te * T' ^ neg_part e) * s p ^ neg_part a * t p ^ neg_part b)%N
      by ring.
    reflexivity. }
  split.
  - intros H. split; [exact HS|]. split; [exact HT|].
    transitivity
      (sa * tb * (s p ^ neg_part a * t p ^ neg_part b * T' ^ neg_part e))%N;
      [symmetry; exact HL|].
    transitivity
      (te * S' * (s p ^ neg_part a * t p ^ neg_part b * T' ^ neg_part e))%N;
      [|exact HR].
    apply congruent_mul; [exact H | reflexivity].
  - intros (_ & _ & H).
    assert (H' : congruent (n p)
              (sa * tb * (s p ^ neg_part a * t p ^ neg_part b * T' ^ neg_part e))
              (te * S' * (s p ^ neg_part a * t p ^ neg_part b * T' ^ neg_part e))).
    { transitivity (s p ^ pos_part a * t p ^ pos_part b * T' ^ neg_part e)%N;
        [exact HL|].
      transitivity (S' * T' ^ pos_part e * s p ^ neg_part a * t p ^ neg_part b)%N;
        [exact H | symmetry; exact HR]. }
    rewrite !N.mul_assoc in H'.
    apply unit_pow_cancel in H'; [|assumption].
    apply unit_pow_cancel in H'; [|assumption].
    apply unit_pow_cancel in H'; [|assumption].
    exact H'.
Qed.

Lemma valid_units (p : Parameters) :
  ValidateParameters (Some (n p)) (Some (s p)) (Some (t p)) = None ->
  InUnitGroup (n p) (s p) /\ InUnitGroup (n p) (t p).
Proof.
  unfold ValidateParameters.
  destruct (IsValidNatModN (n p) [s p; t p]) eqn:Hv; simpl; [|discriminate].
  intros _. now apply IsValidNatModN_pair.
Qed.

Lemma opening_holds_nonneg (p : Parameters) (a b e : Z) (S' T' : N) :
  0 <= a -> 0 <= b -> 0 <= e ->
  opening_holds p a b e S' T' <->
  ((s p ^ Z.to_N a * t p ^ Z.to_N b) mod n p
   = (S' * T' ^ Z.to_N e) mod n p)%N.
Proof.
  intros Ha Hb He. unfold opening_holds, pos_part, neg_part.
  replace (Z.to_N (- a)) with 0%N by lia.
  replace (Z.to_N (- b)) with 0%N by lia.
  replace (Z.to_N (- e)) with 0%N by lia.
  rewrite !N.pow_0_r, !N.mul_1_r. apply congruent_eq.
Qed.

(** C8: for valid parameters, Verify answers true exactly when all five
    arguments are present, S and T are in the unit group modulo N and
    s^a t^b ≡ S T^e (mod N); so it answers false when an argument is nil or
    when S or T is outside [1, N-1] or not coprime to N.  For non-negative
    exponents the congruence is the one between the plain powers. *)
Theorem Verify_spec (p : Parameters) (a b e : option Z) (S' T' : option N) :
  ValidateParameters (Some (n p)) (Some (s p)) (Some (t p)) = None ->
  (Verify p a b e S' T' = true <->
   exists a' b' e' S0 T0,
     a = Some a' /\ b = Some b' /\ e = Some e' /\
     S' = Some S0 /\ T' = Some T0 /\
     InUnitGroup (n p) S0 /\ InUnitGroup (n p) T0 /\
     opening_holds p a' b' e' S0 T0) /\
  (a = None \/ b = None \/ e = None \/ S' = None \/ T' = None ->
   Verify p a b e S' T' = false) /\
  (forall S0 T0, S' = Some S0 -> T' = Some T0 ->
     ~ (InUnitGroup (n p) S0 /\ InUnitGroup (n p) T0) ->
     Verify p a b e S' T' = false) /\
  (forall a' b' e' S0 T0,
     a = Some a' -> b = Some b' -> e = Some e' ->
     S' = Some S0 -> T' = Some T0 ->
     InUnitGroup (n p) S0 -> InUnitGroup (n p) T0 ->
     0 <= a' -> 0 <= b' -> 0 <= e' ->
     (Verify p a b e S' T' = true <->
      ((s p ^ Z.to_N a' * t p ^ Z.to_N b') mod n p
       = (S0 * T0 ^ Z.to_N e') mod n p)%N)).
Proof.
  intros Hvalid. destruct (valid_units p Hvalid) as [Hs Ht].
  assert (Hiff : Verify p a b e S' T' = true <->
                 exists a' b' e' S0 T0,
                   a = Some a' /\ b = Some b' /\ e = Some e' /\
                   S' = Some S0 /\ T' = Some T0 /\
                   InUnitGroup (n p) S0 /\ InUnitGroup (n p) T0 /\
                   opening_holds p a' b' e' S0 T0).
  { split.
    - destruct a as [a'|], b as [b'|], S' as [S0|], T' as [T0|], e as [e'|];
        try discriminate.
      intros H. apply (Verify_true_iff p a' b' e' S0 T0 Hs Ht) in H.
      exists a', b', e', S0, T0. tauto.
    - intros (a' & b' & e' & S0 & T0 & -> & -> & -> & -> & -> & H).
      now apply Verify_true_iff. }
  split; [exact Hiff|]. split; [|split].
  - intros Hnil. apply not_true_is_false. intros H. apply Hiff in H.
    destruct H as (a' & b' & e' & S0 & T0 & -> & -> & -> & -> & -> & _).
    destruct Hnil as [?|[?|[?|[?|?]]]]; discriminate.
  - intros S0 T0 -> -> Hnot. apply not_true_is_false. intros H.
    apply Hiff in H.
    destruct H as (a' & b' & e' & S1 & T1 & _ & _ & _ & HS & HT & H).
    injection HS as <-. injection HT as <-. tauto.
  - intros a' b' e' S0 T0 -> -> -> -> -> HS HT Ha Hb He.
    rewrite (Verify_true_iff p a' b' e' S0 T0 Hs Ht).
    rewrite (opening_holds_nonneg p a' b' e' S0 T0 Ha Hb He). tauto.
Qed.

(** N = 15, s = 2, t = 4: 2^(-1) * 4 = 8 * 4 ≡ 2 ≡ 2 * 4^2 (mod 15). *)
Lemma Verify_spec_witness :
  ValidateParameters (Some 15%N) (Some 2%N) (Some 4%N) = None /\
  opening_holds (New 15 2 4) (-1) 1 2 2 4 /\
  Verify (New 15 2 4) (Some (-1)) (Some 1) (Some 2) (Some 17%N) (Some 4%N)
  = false.
Proof.
  split; [reflexivity|].
  pose proof (Verify_spec (New 15 2 4) (Some (-1)) (Some 1) (Some 2)
                (Some 2%N) (Some 4%N) eq_refl) as (Hiff & _).
  pose proof (Verify_spec (New 15 2 4) (Some (-1)) (Some 1) (Some 2)
                (Some 17%N) (Some 4%N) eq_refl) as (_ & _ & Hout & _).
  split.
  - destruct (proj1 Hiff eq_refl)
      as (a' & b' & e' & S0 & T0 & Ha & Hb & He & HS & HT & _ & _ & H).
    injection Ha as <-. injection Hb as <-. injection He as <-.
    injection HS as <-. injection HT as <-. exact H.
  - apply (Hout 17%N 4%N eq_refl eq_refl).
    intros [[H _] _]. simpl in H. lia.
Defined.

(** *** Wire format and round trip *)

Lemma MarshalBiinary_format (p : Held) :
  MarshalBiinary p
  = (LittleEndian_PutUint16
       (uint16 (Z.of_nat (length (Saferith.Bytes (n (values p))))))
       ++ Saferith.Bytes (n (values p))
     ++ LittleEndian_PutUint16
          (uint16 (Z.of_nat (length (Saferith.Nat_Bytes (held_s p)))))
       ++ Saferith.Nat_Bytes (held_s p)
     ++ LittleEndian_PutUint16
          (uint16 (Z.of_nat (length (Saferith.Nat_Bytes (held_t p)))))
       ++ Saferith.Nat_Bytes (held_t p), None).
Proof.
  unfold MarshalBiinary, Modulus_MarshalBinary, Saferith.MarshalBinary,
    Saferith.Nat_MarshalBinary.
  cbv zeta. f_equal. rewrite app_nil_l, <- !app_assoc. reflexivity.
Qed.

(** Valid parameters have a modulus other than zero. *)
Lemma ValidateParameters_modulus (n0 s0 t0 : N) :
  ValidateParameters (Some n0) (Some s0) (Some t0) = None -> n0 <> 0%N.
Proof.
  intros H ->. unfold ValidateParameters, IsValidNatModN in H.
  cbn [forallb] in H.
  assert (Hs : IsInUnitGroup 0 s0 = false).
  { unfold IsInUnitGroup.
    destruct (N.leb_spec 1 s0), (N.leb_spec s0 (0 - 1)); try reflexivity.
    lia. }
  rewrite Hs in H. discriminate H.
Qed.

Lemma UnmarshalBiinary_MarshalBiinary (p p0 : Held) (spare : list byte) :
  n (values p) <> 0%N ->
  Saferith.well_formed (held_s p) ->
  Saferith.well_formed (held_t p) ->
  Z.of_nat (length (Saferith.Bytes (n (values p)))
            + Saferith.byteLen (held_s p)
            + Saferith.byteLen (held_t p)) + 6 < 65536 ->
  UnmarshalBiinary p0 (with_spare (MarshalBiinary p).1 spare)
  = Return (Hold (values p) (8 * Saferith.byteLen (held_s p))
                            (8 * Saferith.byteLen (held_t p)), None).
Proof.
  intros Hn Hs Ht Hlen. rewrite MarshalBiinary_format. cbn [fst].
  rewrite <- (Saferith.length_Nat_Bytes (held_s p)),
    <- (Saferith.length_Nat_Bytes (held_t p)) in Hlen.
  set (nb := Saferith.Bytes (n (values p))) in *.
  set (sb := Saferith.Nat_Bytes (held_s p)) in *.
  set (tb := Saferith.Nat_Bytes (held_t p)) in *.
  set (nl := Z.of_nat (length nb)).
  set (sl := Z.of_nat (length sb)).
  set (tl := Z.of_nat (length tb)).
  set (nlb := LittleEndian_PutUint16 (uint16 nl)).
  set (slb := LittleEndian_PutUint16 (uint16 sl)).
  set (tlb := LittleEndian_PutUint16 (uint16 tl)).
  assert (Hnlb : length nlb = 2%nat) by reflexivity.
  assert (Hslb : length slb = 2%nat) by reflexivity.
  assert (Htlb : length tlb = 2%nat) by reflexivity.
  unfold with_spare.
  set (L := (nlb ++ nb ++ slb ++ sb ++ tlb ++ tb) ++ spare).
  set (k := length (nlb ++ nb ++ slb ++ sb ++ tlb ++ tb)).
  assert (Hk : (2 <= k)%nat) by (subst k; rewrite length_app; lia).
  unfold UnmarshalBiinary.
  rewrite (reslice_at L [] nlb (nb ++ slb ++ sb ++ tlb ++ tb ++ spare) k 0 2)
    by (subst L; rewrite <- ?app_assoc; reflexivity || (simpl; lia)).
  cbn [bind]. subst nlb. rewrite Uint16_PutUint16 by lia. cbn [bind].
  set (nlb := LittleEndian_PutUint16 (uint16 nl)) in *.
  rewrite uint16_idemp, (uint16_small nl) by (subst nl; lia).
  rewrite (uint16_small (2 + nl)), (uint16_small (2 + nl + 2))
    by (subst nl; lia).
  rewrite (reslice_at L nlb nb (slb ++ sb ++ tlb ++ tb ++ spare) k 2 (2 + nl))
    by (subst L nl; rewrite <- ?app_assoc; reflexivity || lia).
  cbn [bind].
  rewrite (reslice_at L (nlb ++ nb) slb (sb ++ tlb ++ tb ++ spare) k
             (2 + nl) (2 + nl + 2))
    by (subst L nl; rewrite <- ?app_assoc, ?length_app;
        reflexivity || lia).
  cbn [bind]. subst slb. rewrite Uint16_PutUint16 by lia. cbn [bind].
  set (slb := LittleEndian_PutUint16 (uint16 sl)) in *.
  rewrite uint16_idemp, (uint16_small sl) by (subst sl; lia).
  rewrite (uint16_small (2 + nl + 2 + sl)),
    (uint16_small (2 + nl + 2 + sl + 2)) by (subst nl sl; lia).
  rewrite (reslice_at L (nlb ++ nb ++ slb) sb (tlb ++ tb ++ spare) k
             (2 + nl + 2) (2 + nl + 2 + sl))
    by (subst L nl sl; rewrite <- ?app_assoc, ?length_app;
        reflexivity || lia).
  cbn [bind].
  rewrite (reslice_at L (nlb ++ nb ++ slb ++ sb) tlb (tb ++ spare) k
             (2 + nl + 2 + sl) (2 + nl + 2 + sl + 2))
    by (subst L nl sl; rewrite <- ?app_assoc, ?length_app;
        reflexivity || lia).
  cbn [bind]. subst tlb. rewrite Uint16_PutUint16 by lia. cbn [bind].
  set (tlb := LittleEndian_PutUint16 (uint16 tl)) in *.
  rewrite uint16_idemp, (uint16_small tl) by (subst tl; lia).
  rewrite (uint16_small (2 + nl + 2 + sl + 2 + tl)) by (subst nl sl tl; lia).
  rewrite (reslice_at L (nlb ++ nb ++ slb ++ sb ++ tlb) tb spare k
             (2 + nl + 2 + sl + 2) (2 + nl + 2 + sl + 2 + tl))
    by (subst L nl sl tl; rewrite <- ?app_assoc, ?length_app;
        reflexivity || lia).
  cbn [bind]. rewrite !contents_app.
  unfold Modulus_UnmarshalBinary, Saferith.Nat_UnmarshalBinary.
  subst nb sb tb.
  rewrite (Saferith.Modulus_UnmarshalBinary_Bytes _ Hn). cbn [bind].
  rewrite (Saferith.Nat_SetBytes_Bytes _ Hs), (Saferith.Nat_SetBytes_Bytes _ Ht).
  unfold set_t, set_s, set_n. cbn.
  destruct p as [[n0 s0 t0] sa ta]. reflexivity.
Qed.

(** C9 (as amended): for valid parameters p = (N, s, t), serialization
    produces exactly
    u16_le(len(N)) || N || u16_le(len(s)) || s || u16_le(len(t)) || t,
    where N is written without leading zero bytes and s and t in their
    announced length; and whenever none of the three length prefixes
    overflows (the encoding is at most 65535 bytes long), deserializing it,
    from a slice of any capacity, recovers N, s and t exactly, s and t
    announcing eight bits per encoded byte. *)
Theorem MarshalBiinary_roundtrip (p p0 : Held) (spare : list byte) :
  ValidateParameters (Some (n (values p))) (Some (s (values p)))
    (Some (t (values p))) = None ->
  Saferith.well_formed (held_s p) ->
  Saferith.well_formed (held_t p) ->
  MarshalBiinary p
  = (LittleEndian_PutUint16
       (uint16 (Z.of_nat (length (Saferith.Bytes (n (values p))))))
       ++ Saferith.Bytes (n (values p))
     ++ LittleEndian_PutUint16
          (uint16 (Z.of_nat (length (Saferith.Nat_Bytes (held_s p)))))
       ++ Saferith.Nat_Bytes (held_s p)
     ++ LittleEndian_PutUint16
          (uint16 (Z.of_nat (length (Saferith.Nat_Bytes (held_t p)))))
       ++ Saferith.Nat_Bytes (held_t p), None) /\
  (Z.of_nat (length (Saferith.Bytes (n (values p)))
             + length (Saferith.Nat_Bytes (held_s p))
             + length (Saferith.Nat_Bytes (held_t p))) + 6 < 65536 ->
   exists q : Held,
     UnmarshalBiinary p0 (with_spare (MarshalBiinary p).1 spare)
     = Return (q, None) /\
     values q = values p /\
     s_announced q = (8 * length (Saferith.Nat_Bytes (held_s p)))%nat /\
     t_announced q = (8 * length (Saferith.Nat_Bytes (held_t p)))%nat).
Proof.
  intros Hvalid Hs Ht. split.
  - apply MarshalBiinary_format.
  - intros Hlen. rewrite !Saferith.length_Nat_Bytes in *.
    eexists. split; [|split; [|split]].
    + apply UnmarshalBiinary_MarshalBiinary; try assumption.
      eapply ValidateParameters_modulus, Hvalid.
    + reflexivity.
    + reflexivity.
    + reflexivity.
Qed.

(** The parameters (65537, 2, 4), s and t announcing the 17 bits of the
    modulus. *)
Definition fermat : Held := Hold (New 65537 2 4) 17 17.

Lemma MarshalBiinary_roundtrip_witness :
  MarshalBiinary fermat
  = ([x03; x00; x01; x00; x01;
      x03; x00; x00; x00; x02;
      x03; x00; x00; x00; x04], None) /\
  UnmarshalBiinary (Hold (New 0 0 0) 0 0) (exact (MarshalBiinary fermat).1)
  = Return (Hold (New 65537 2 4) 24 24, None).
Proof.
  assert (Hvalid : ValidateParameters (Some (n (values fermat)))
                     (Some (s (values fermat))) (Some (t (values fermat)))
                   = None) by (vm_compute; reflexivity).
  assert (Hs : Saferith.well_formed (held_s fermat))
    by (vm_compute; reflexivity).
  assert (Ht : Saferith.well_formed (held_t fermat))
    by (vm_compute; reflexivity).
  pose proof (MarshalBiinary_roundtrip fermat (Hold (New 0 0 0) 0 0) []
                Hvalid Hs Ht) as [Hfmt Hrt].
  split.
  - rewrite Hfmt. reflexivity.
  - destruct Hrt as (q & Hq & _); [vm_compute; reflexivity|].
    etransitivity; [|etransitivity; [exact Hq|]]; [reflexivity|].
    vm_compute in Hq. injection Hq as <-. reflexivity.
Defined.

(** A modulus of 65536 bytes, with s = 1 and t = 2 in one byte each: valid
    parameters whose length prefix for N wraps to zero. *)
Definition oversized : Held := Hold (New (N.shiftl 1 524280 + 1) 1 2) 8 8.

(** C9, as stated, fails at [oversized]: the parameters are valid, yet
    decoding their encoding reads an empty modulus and panics. *)
Lemma MarshalBiinary_roundtrip_counterexample :
  ValidateParameters (Some (n (values oversized))) (Some (s (values oversized)))
    (Some (t (values oversized))) = None /\
  Saferith.well_formed (held_s oversized) /\
  Saferith.well_formed (held_t oversized) /\
  UnmarshalBiinary oversized (exact (MarshalBiinary oversized).1) = Panic.
Proof.
  split; [vm_compute; reflexivity|].
  split; [vm_compute; reflexivity|].
  split; vm_compute; reflexivity.
Qed.


(** *** Commitments *)

Lemma congruent_mul_l (n a a' b : N) :
  congruent n a a' -> congruent n (a * b) (a' * b).
Proof. intros H. apply congruent_mul; [exact H | reflexivity]. Qed.

Lemma congruent_mul_r (n a b b' : N) :
  congruent n b b' -> congruent n (a * b) (a * b').
Proof. intros H. apply congruent_mul; [reflexivity | exact H]. Qed.

(** [ExpI n x k] is, up to congruence, the only value [z] with
    z * x^(k-) ≡ x^(k+). *)
Lemma ExpI_unique (n x z : N) (k : Z) :
  InUnitGroup n x ->
  congruent n (z * x ^ neg_part k) (x ^ pos_part k) ->
  congruent n z (ExpI n x k).
Proof.
  intros Hu Hz. apply (unit_pow_cancel n x (neg_part k)); [exact Hu|].
  transitivity (x ^ pos_part k)%N; [exact Hz|].
  symmetry. now apply ExpI_spec.
Qed.

Lemma ExpI_add (n x : N) (j k : Z) :
  InUnitGroup n x ->
  congruent n (ExpI n x (j + k)) (ExpI n x j * ExpI n x k).
Proof.
  intros Hu. symmetry. apply ExpI_unique; [exact Hu|].
  apply (unit_pow_cancel n x (neg_part j + neg_part k)); [exact Hu|].
  pose proof (ExpI_spec n x j Hu) as Ej. pose proof (ExpI_spec n x k Hu) as Ek.
  replace (ExpI n x j * ExpI n x k * x ^ neg_part (j + k)
           * x ^ (neg_part j + neg_part k))%N
    with ((ExpI n x j * x ^ neg_part j) * (ExpI n x k * x ^ neg_part k)
          * x ^ neg_part (j + k))%N
    by (rewrite N.pow_add_r; ring).
  transitivity (x ^ pos_part j * x ^ pos_part k * x ^ neg_part (j + k))%N.
  - apply congruent_mul_l. now apply congruent_mul.
  - rewrite <- !N.pow_add_r.
    replace (pos_part j + pos_part k + neg_part (j + k))%N
      with (pos_part (j + k) + (neg_part j + neg_part k))%N
      by (unfold pos_part, neg_part; lia).
    reflexivity.
Qed.

Lemma ExpI_0 (n x : N) : congruent n (ExpI n x 0) 1.
Proof. unfold ExpI. simpl. apply congruent_mod. Qed.

Lemma ExpI_opp (n x : N) (k : Z) :
  InUnitGroup n x -> congruent n (ExpI n x k * ExpI n x (- k)) 1.
Proof.
  intros Hu. transitivity (ExpI n x (k + - k)).
  - symmetry. now apply ExpI_add.
  - rewrite Z.add_opp_diag_r. apply ExpI_0.
Qed.

Lemma ExpI_pow (n x : N) (k : Z) (m : N) :
  InUnitGroup n x ->
  congruent n (ExpI n x k ^ m) (ExpI n x (Z.of_N m * k)).
Proof.
  intros Hu. induction m as [|m IH] using N.peano_ind.
  - simpl. symmetry. apply ExpI_0.
  - rewrite N.pow_succ_r', N2Z.inj_succ.
    replace (Z.succ (Z.of_N m) * k) with (k + Z.of_N m * k) by lia.
    transitivity (ExpI n x k * ExpI n x (Z.of_N m * k))%N.
    + now apply congruent_mul_r.
    + symmetry. now apply ExpI_add.
Qed.

Lemma ExpI_lt (n x : N) (k : Z) : (2 <= n)%N -> (ExpI n x k < n)%N.
Proof.
  intros Hn. unfold ExpI. destruct (k <? 0); apply N.mod_lt; lia.
Qed.

(** A residue with an inverse is in the unit group. *)
Lemma unit_of_inverse (n y z : N) :
  (2 <= n)%N -> (y < n)%N -> congruent n (y * z) 1 -> InUnitGroup n y.
Proof.
  intros Hn Hy H. apply congruent_eq in H.
  rewrite (N.mod_small 1 n) in H by lia.
  assert (Hg : N.gcd y n = 1%N).
  { apply N.divide_1_r.
    pose proof (N.div_mod (y * z) n ltac:(lia)) as Hdm. rewrite H in Hdm.
    apply (N.divide_add_cancel_r _ (n * (y * z / n))).
    - apply N.divide_mul_l, N.gcd_divide_r.
    - rewrite <- Hdm. apply N.divide_mul_l, N.gcd_divide_l. }
  split; [|exact Hg]. split; [|lia].
  destruct (N.eq_dec y 0%N) as [->|]; [|lia].
  rewrite N.mul_0_l, N.Div0.mod_0_l in H. discriminate.
Qed.

Lemma Commit_congruent (p : Parameters) (x y : Z) :
  congruent (n p) (Commit p x y) (ExpI (n p) (s p) x * ExpI (n p) (t p) y).
Proof. unfold Commit, ModMul. apply congruent_mod. Qed.

(** X18: Every commitment under valid parameters is in the unit group modulo
    N, so it passes [IsValidNatModN] and can itself be opened. *)
Theorem Commit_unit (p : Parameters) (x y : Z) :
  ValidateParameters (Some (n p)) (Some (s p)) (Some (t p)) = None ->
  InUnitGroup (n p) (Commit p x y) /\
  IsValidNatModN (n p) [Commit p x y] = true.
Proof.
  intros Hvalid. destruct (valid_units p Hvalid) as [Hs Ht].
  pose proof (InUnitGroup_modulus _ _ Hs) as Hn.
  assert (Hu : InUnitGroup (n p) (Commit p x y)).
  { apply (unit_of_inverse _ _
             (ExpI (n p) (s p) (- x) * ExpI (n p) (t p) (- y))); [exact Hn| |].
    - unfold Commit, ModMul. apply N.mod_lt. lia.
    - transitivity ((ExpI (n p) (s p) x * ExpI (n p) (t p) y)
                    * (ExpI (n p) (s p) (- x) * ExpI (n p) (t p) (- y)))%N.
      + apply congruent_mul_l, Commit_congruent.
      + replace ((ExpI (n p) (s p) x * ExpI (n p) (t p) y)
                 * (ExpI (n p) (s p) (- x) * ExpI (n p) (t p) (- y)))%N
          with ((ExpI (n p) (s p) x * ExpI (n p) (s p) (- x))
                * (ExpI (n p) (t p) y * ExpI (n p) (t p) (- y)))%N by ring.
        change 1%N with (1 * 1)%N.
        apply congruent_mul; now apply ExpI_opp. }
  split; [exact Hu|]. unfold IsValidNatModN. simpl.
  rewrite andb_true_r. now apply IsInUnitGroup_spec.
Qed.

(** X19: Commitments are additively homomorphic:
    Commit(x1+x2, y1+y2) = Commit(x1, y1) * Commit(x2, y2) mod N. *)
Theorem Commit_add (p : Parameters) (x1 y1 x2 y2 : Z) :
  ValidateParameters (Some (n p)) (Some (s p)) (Some (t p)) = None ->
  Commit p (x1 + x2) (y1 + y2)
  = ModMul (Commit p x1 y1) (Commit p x2 y2) (n p).
Proof.
  intros Hvalid. destruct (valid_units p Hvalid) as [Hs Ht].
  unfold Commit at 1. unfold ModMul. apply congruent_eq.
  transitivity ((ExpI (n p) (s p) x1 * ExpI (n p) (s p) x2)
                * (ExpI (n p) (t p) y1 * ExpI (n p) (t p) y2))%N.
  - apply congruent_mul; now apply ExpI_add.
  - replace ((ExpI (n p) (s p) x1 * ExpI (n p) (s p) x2)
             * (ExpI (n p) (t p) y1 * ExpI (n p) (t p) y2))%N
      with ((ExpI (n p) (s p) x1 * ExpI (n p) (t p) y1)
            * (ExpI (n p) (s p) x2 * ExpI (n p) (t p) y2))%N by ring.
    symmetry. apply congruent_mul; apply Commit_congruent.
Qed.

(** X20: The commitments to (0,0), (1,0) and (0,1) are 1, s and t. *)
Theorem Commit_basis (p : Parameters) :
  ValidateParameters (Some (n p)) (Some (s p)) (Some (t p)) = None ->
  Commit p 0 0 = 1%N /\ Commit p 1 0 = s p /\ Commit p 0 1 = t p.
Proof.
  intros Hvalid. destruct (valid_units p Hvalid) as [Hs Ht].
  pose proof (InUnitGroup_modulus _ _ Hs) as Hn.
  destruct Hs as [[_ Hs] _], Ht as [[_ Ht] _].
  unfold Commit, ModMul, ExpI. cbn [Z.ltb Z.compare Z.to_N].
  rewrite !N.pow_0_r, !N.pow_1_r.
  rewrite (N.mod_small 1), (N.mod_small (s p)), (N.mod_small (t p)) by lia.
  rewrite !N.mul_1_l, !N.mul_1_r.
  rewrite (N.mod_small 1), (N.mod_small (s p)), (N.mod_small (t p)) by lia.
  auto.
Qed.

Lemma Commit_pow (p : Parameters) (x y : Z) (m : N) :
  InUnitGroup (n p) (s p) -> InUnitGroup (n p) (t p) ->
  congruent (n p) (Commit p x y ^ m)
    (ExpI (n p) (s p) (Z.of_N m * x) * ExpI (n p) (t p) (Z.of_N m * y)).
Proof.
  intros Hs Ht.
  transitivity ((ExpI (n p) (s p) x * ExpI (n p) (t p) y) ^ m)%N.
  - apply congruent_pow, Commit_congruent.
  - rewrite N.pow_mul_l. apply congruent_mul; now apply ExpI_pow.
Qed.

(** A signed power of a commitment is the commitment to the scaled pair. *)
Lemma ExpI_Commit (p : Parameters) (x y e : Z) :
  ValidateParameters (Some (n p)) (Some (s p)) (Some (t p)) = None ->
  congruent (n p) (ExpI (n p) (Commit p x y) e)
    (ExpI (n p) (s p) (e * x) * ExpI (n p) (t p) (e * y)).
Proof.
  intros Hvalid. destruct (valid_units p Hvalid) as [Hs Ht].
  destruct (Commit_unit p x y Hvalid) as [HT _].
  symmetry. apply ExpI_unique; [exact HT|].
  unfold pos_part, neg_part. destruct (Z.le_gt_cases 0 e) as [He|He].
  - replace (Z.to_N (- e)) with 0%N by lia. rewrite N.pow_0_r, N.mul_1_r.
    symmetry. rewrite <- (Z2N.id e He) at 2 3. now apply Commit_pow.
  - replace (Z.to_N e) with 0%N by lia. rewrite N.pow_0_r.
    transitivity
      ((ExpI (n p) (s p) (e * x) * ExpI (n p) (t p) (e * y))
       * (ExpI (n p) (s p) (Z.of_N (Z.to_N (- e)) * x)
          * ExpI (n p) (t p) (Z.of_N (Z.to_N (- e)) * y)))%N.
    + apply congruent_mul_r. now apply Commit_pow.
    + rewrite Z2N.id by lia.
      replace (- e * x) with (- (e * x)) by lia.
      replace (- e * y) with (- (e * y)) by lia.
      replace ((ExpI (n p) (s p) (e * x) * ExpI (n p) (t p) (e * y))
               * (ExpI (n p) (s p) (- (e * x)) * ExpI (n p) (t p) (- (e * y))))%N
        with ((ExpI (n p) (s p) (e * x) * ExpI (n p) (s p) (- (e * x)))
              * (ExpI (n p) (t p) (e * y) * ExpI (n p) (t p) (- (e * y))))%N
        by ring.
      change 1%N with (1 * 1)%N. apply congruent_mul; now apply ExpI_opp.
Qed.

(** X21: Openings verify: with A = Commit(a, b) and X = Commit(x, y), the
    response (a + e*x, b + e*y) to the challenge e passes
    Verify(a + e*x, b + e*y, e, A, X), for all signed values. *)
Theorem Verify_opening (p : Parameters) (a b x y e : Z) :
  ValidateParameters (Some (n p)) (Some (s p)) (Some (t p)) = None ->
  Verify p (Some (a + e * x)) (Some (b + e * y)) (Some e)
    (Some (Commit p a b)) (Some (Commit p x y)) = true.
Proof.
  intros Hvalid. destruct (valid_units p Hvalid) as [Hs Ht].
  destruct (Commit_unit p a b Hvalid) as [HA _].
  destruct (Commit_unit p x y Hvalid) as [HX _].
  unfold Verify.
  rewrite (proj2 (IsValidNatModN_pair (n p) (Commit p a b) (Commit p x y)))
    by (split; assumption).
  cbn [negb]. cbv zeta. rewrite N.eqb_eq. unfold ModMul. apply congruent_eq.
  transitivity ((ExpI (n p) (s p) a * ExpI (n p) (s p) (e * x))
                * (ExpI (n p) (t p) b * ExpI (n p) (t p) (e * y)))%N.
  - apply congruent_mul; now apply ExpI_add.
  - replace ((ExpI (n p) (s p) a * ExpI (n p) (s p) (e * x))
             * (ExpI (n p) (t p) b * ExpI (n p) (t p) (e * y)))%N
      with ((ExpI (n p) (s p) (e * x) * ExpI (n p) (t p) (e * y))
            * (ExpI (n p) (s p) a * ExpI (n p) (t p) b))%N by ring.
    symmetry. apply congruent_mul.
    + now apply ExpI_Commit.
    + apply Commit_congruent.
Qed.

Lemma Commit_unit_witness :
  IsValidNatModN 15 [Commit (New 15 2 4) (-3) 7] = true.
Proof.
  apply (Commit_unit (New 15 2 4) (-3) 7). reflexivity.
Defined.

Lemma Commit_add_witness :
  Commit (New 15 2 4) (3 + -5) (1 + 2)
  = ModMul (Commit (New 15 2 4) 3 1) (Commit (New 15 2 4) (-5) 2) 15.
Proof.
  apply (Commit_add (New 15 2 4) 3 1 (-5) 2). reflexivity.
Defined.

Lemma Commit_basis_witness :
  Commit (New 15 2 4) 1 0 = 2%N /\ Commit (New 15 2 4) 0 1 = 4%N.
Proof.
  destruct (Commit_basis (New 15 2 4) eq_refl) as (_ & H1 & H2).
  split; [exact H1 | exact H2].
Defined.

Lemma Verify_opening_witness :
  Verify (New 15 2 4) (Some (3 + -2 * 5)) (Some (-1 + -2 * 4)) (Some (-2))
    (Some (Commit (New 15 2 4) 3 (-1))) (Some (Commit (New 15 2 4) 5 4))
  = true.
Proof.
  apply (Verify_opening (New 15 2 4) 3 (-1) 5 4 (-2)). reflexivity.
Defined.

(** *** The transcript contribution *)

Section Writing.

(** [params.BytesIntModN], the fixed width of a number modulo N in bytes,
    and an [io.Writer] given by its state and its [Write]. *)
Variable BytesIntModN : nat.
Variable Writer : Type.
Variable Write : Writer -> list byte -> Writer * (Z * option string).

(** [io.ErrUnexpectedEOF] *)
Definition ErrUnexpectedEOF : string := "unexpected EOF".

(** The loop of [WriteTo] over the remaining numbers [ints]. *)
Fixpoint WriteTo_loop (w : Writer) (nAll : Z) (ints : list N)
  : Writer * (Z * option string) :=
  match ints with
  | [] => (w, (nAll, None))
  | i :: ints =>
      let buf := Saferith.FillBytes BytesIntModN i in
      let '(w, (n, err)) := Write w buf in
      let nAll := nAll + n in
      match err with
      | Some e => (w, (nAll, Some e))
      | None => WriteTo_loop w nAll ints
      end
  end.

(** [WriteTo(w)]; the receiver [None] is the nil pointer. *)
Definition WriteTo (p : option Parameters) (w : Writer)
  : Writer * (Z * option string) :=
  match p with
  | None => (w, (0, Some ErrUnexpectedEOF))
  | Some p => WriteTo_loop w 0 [n p; s p; t p]
  end.

End Writing.

(** [Domain()] *)
Definition Domain : string := "Pedersen Parameters".

(** X22: Into a [bytes.Buffer], [WriteTo] appends N, s and t in that order, each
    in exactly [BytesIntModN] big-endian bytes, and reports
    3 * BytesIntModN bytes and no error; on a nil receiver it writes
    nothing and reports [io.ErrUnexpectedEOF]. *)
Theorem WriteTo_Buffer (W : nat) (p : Parameters) (buf : list byte) :
  WriteTo W (list byte) Buffer_Write (Some p) buf
  = (buf ++ Saferith.FillBytes W (n p) ++ Saferith.FillBytes W (s p)
         ++ Saferith.FillBytes W (t p),
     (3 * Z.of_nat W, None)) /\
  length (Saferith.FillBytes W (n p) ++ Saferith.FillBytes W (s p)
          ++ Saferith.FillBytes W (t p)) = (3 * W)%nat /\
  WriteTo W (list byte) Buffer_Write None buf
  = (buf, (0, Some "unexpected EOF"%string)).
Proof.
  split; [|split; [|reflexivity]].
  - unfold WriteTo, WriteTo_loop, Buffer_Write.
    rewrite !Saferith.length_FillBytes, <- !app_assoc. do 2 f_equal. lia.
  - rewrite !length_app, !Saferith.length_FillBytes. lia.
Qed.

(** X23: What [WriteTo] writes determines the parameters, as long as N, s and t
    fit the fixed width. *)
Theorem WriteTo_injective (W : nat) (p q : Parameters) :
  (n p < 256 ^ N.of_nat W)%N -> (s p < 256 ^ N.of_nat W)%N ->
  (t p < 256 ^ N.of_nat W)%N ->
  (n q < 256 ^ N.of_nat W)%N -> (s q < 256 ^ N.of_nat W)%N ->
  (t q < 256 ^ N.of_nat W)%N ->
  (WriteTo W (list byte) Buffer_Write (Some p) []).1
  = (WriteTo W (list byte) Buffer_Write (Some q) []).1 ->
  p = q.
Proof.
  intros Hnp Hsp Htp Hnq Hsq Htq.
  destruct (WriteTo_Buffer W p []) as [-> _].
  destruct (WriteTo_Buffer W q []) as [-> _].
  cbn [fst app]. intros H.
  apply app_inj_1 in H as [Hn H]; [|now rewrite !Saferith.length_FillBytes].
  apply app_inj_1 in H as [Hs Ht]; [|now rewrite !Saferith.length_FillBytes].
  apply (f_equal Saferith.SetBytes) in Hn, Hs, Ht.
  rewrite !Saferith.SetBytes_FillBytes in Hn, Hs, Ht.
  rewrite !N.mod_small in Hn, Hs, Ht by assumption.
  destruct p, q. simpl in *. congruence.
Qed.

Lemma WriteTo_injective_witness :
  (WriteTo 2 (list byte) Buffer_Write (Some (New 15 2 4)) []).1
  = [x00; x0f; x00; x02; x00; x04] /\
  New 15 2 4 = New 15 2 4.
Proof.
  split; [reflexivity|].
  apply (WriteTo_injective 2 (New 15 2 4) (New 15 2 4));
    try (vm_compute; reflexivity).
Defined.

(** *** Malformed input to [UnmarshalBiinary] *)

(** X24: On fewer than six bytes of capacity, the room for the three length
    prefixes, [UnmarshalBiinary] panics; it does not return an error. *)
Theorem UnmarshalBiinary_short (p : Held) (data : slice) :
  (cap data < 6)%nat -> UnmarshalBiinary p data = Panic.
Proof.
  intros Hcap. unfold UnmarshalBiinary.
  destruct (reslice data 0 2) as [nlb|] eqn:E1; [|reflexivity]. cbn [bind].
  destruct (LittleEndian_Uint16 nlb) as [nl|] eqn:U1; [|reflexivity].
  cbn [bind].
  destruct (reslice data 2 (uint16 (2 + nl))) as [nb|] eqn:E2;
    [|reflexivity]. cbn [bind].
  destruct (reslice data (uint16 (2 + nl)) (uint16 (2 + nl + 2))) as [slb|]
    eqn:E3; [|reflexivity]. cbn [bind].
  destruct (LittleEndian_Uint16 slb) as [sl|] eqn:U2; [|reflexivity].
  cbn [bind].
  destruct (reslice data (uint16 (2 + nl + 2)) (uint16 (2 + nl + 2 + sl)))
    as [sb|] eqn:E4; [|reflexivity]. cbn [bind].
  destruct (reslice data (uint16 (2 + nl + 2 + sl))
              (uint16 (2 + nl + 2 + sl + 2))) as [tlb|] eqn:E5;
    [|reflexivity]. cbn [bind].
  destruct (LittleEndian_Uint16 tlb) as [tl|] eqn:U3; [|reflexivity].
  exfalso.
  apply reslice_Return in E2, E3, E4, E5.
  apply Uint16_Return in U2, U3. lia.
Qed.

Lemma UnmarshalBiinary_short_witness :
  UnmarshalBiinary (Hold (New 0 0 0) 0 0) (exact [x01; x00; x0f; x01; x00])
  = Panic.
Proof.
  apply UnmarshalBiinary_short. vm_compute. lia.
Defined.


End Pedersen.

(** ** The transcript hash *)

Module Transcript.

Abbreviation error := string.

(** [core_hash.BytesWithDomain] *)
Record BytesWithDomain : Type := mkBytesWithDomain {
  TheDomain : string;
  Bytes : list byte
}.

(** Modelled from the spec: [core_hash.DigestLengthBytes] is not in the
    source tree; the digest length is 32 bytes. *)
Definition DigestLengthBytes : nat := 32.

(** What [WriteAny] can be handed, by the case of its type switch that
    fires.  For the two interface cases the value carries what its
    [WriteTo] wrote (resp. what [MarshalBinary] returned) and the error. *)
Inductive Input : Type :=
| ByteSlice (t : option (list byte))
| BigInt (t : option Z)
| WriterToWithDomain (typeName domain : string)
    (written : list byte) (werr : option error)
| BinaryMarshaler (typeName : string)
    (bytes : list byte) (merr : option error)
| Unsupported.

Section Hash.

(** The BLAKE3 hasher is a collaborator.  A hasher is identified with the
    bytes written to it so far; [Digest_ReadFull input k] is the outcome of
    [io.ReadFull] for [k] bytes on the digest reader of a hasher fed
    [input]: the bytes read and the error. *)
Variable Digest_ReadFull : list byte -> nat -> list byte * option error.

(** The key-linked store with its [Import], CBOR marshalling of the state
    and [big.Int]'s gob encoding. *)
Variable Store : Type.
Variable store_Import : Store -> list byte -> Store * option error.
Variable cbor_Marshal : list BytesWithDomain -> list byte * option error.
Variable GobEncode : Z -> list byte.

Record Hash : Type := mkHash {
  h : list byte;
  state : list BytesWithDomain;
  store : Store
}.

(** [New(store, initialData...)]: the initial data is not used. *)
Definition New (store : Store) : Hash := mkHash [] [] store.

(** [Sum()] *)
Definition Sum (hash : Hash) : outcome (list byte) :=
  let '(out, err) := Digest_ReadFull (h hash) DigestLengthBytes in
  match err with
  | Some _ => Panic
  | None => Return out
  end.

(** [writeBytesWithDomain(toBeWritten)] *)
Definition writeBytesWithDomain (hash : Hash) (toBeWritten : BytesWithDomain)
  : Hash :=
  let hh := h hash ++ String.list_byte_of_string "(" in
  let sizeBuf :=
    BigEndian_PutUint64
      (uint64 (Z.of_nat (String.length (TheDomain toBeWritten)))) in
  let hh := hh ++ sizeBuf in
  let hh := hh ++ String.list_byte_of_string (TheDomain toBeWritten) in
  let sizeBuf :=
    BigEndian_PutUint64 (uint64 (Z.of_nat (length (Bytes toBeWritten)))) in
  let hh := hh ++ sizeBuf in
  let hh := hh ++ Bytes toBeWritten in
  let hh := hh ++ String.list_byte_of_string ")" in
  mkHash hh (state hash) (store hash).

(** [updateState(toBeWritten)] *)
Definition updateState (hash : Hash) (toBeWritten : BytesWithDomain)
  : Hash * option error :=
  let st := state hash ++ [toBeWritten] in
  let '(ss, err) := cbor_Marshal st in
  match err with
  | Some e => (mkHash (h hash) st (store hash), Some e)
  | None =>
      let '(store', e) := store_Import (store hash) ss in
      (mkHash (h hash) st store', e)
  end.

(** The type switch of [WriteAny]: the pair to be written, or the error
    returned. *)
Definition toBeWritten (d : Input) : BytesWithDomain + error :=
  match d with
  | ByteSlice None => inr "hash.WriteAny: nil []byte"%string
  | ByteSlice (Some t) => inl (mkBytesWithDomain "[]byte" t)
  | BigInt None => inr "hash.WriteAny: write *big.Int: nil"%string
  | BigInt (Some t) => inl (mkBytesWithDomain "big.Int" (GobEncode t))
  | WriterToWithDomain name domain written (Some e) =>
      inr ("hash.WriteAny: " +:+ name +:+ ": " +:+ e)%string
  | WriterToWithDomain name domain written None =>
      inl (mkBytesWithDomain domain written)
  | BinaryMarshaler name bytes (Some e) =>
      inr ("hash.WriteAny: " +:+ name +:+ ": " +:+ e)%string
  | BinaryMarshaler name bytes None => inl (mkBytesWithDomain name bytes)
  | Unsupported => inr "hash.WriteAny: invalid type provided as input"%string
  end.

(** [WriteAny(data...)]: the transcript after the call and the error. *)
Fixpoint WriteAny (hash : Hash) (data : list Input) : Hash * option error :=
  match data with
  | [] => (hash, None)
  | d :: data =>
      match toBeWritten d with
      | inr e => (hash, Some e)
      | inl w =>
          let hash := (updateState hash w).1 in
          let hash := writeBytesWithDomain hash w in
          WriteAny hash data
      end
  end.

(** *** Framing *)

(** The framing rule in the words of the specification: [u64_be n] is the
    eight-byte big-endian encoding of [n], and a write of [(domain, data)]
    emits "(" || u64_be(len(domain)) || domain || u64_be(len(data)) || data
    || ")". *)
Definition u64_be (n : Z) : list byte :=
  map (fun k => byte_of_Z (n / 256 ^ k)) [7; 6; 5; 4; 3; 2; 1; 0].

Definition frame (domain : string) (data : list byte) : list byte :=
  String.list_byte_of_string "("
  ++ u64_be (Z.of_nat (length (String.list_byte_of_string domain)))
  ++ String.list_byte_of_string domain
  ++ u64_be (Z.of_nat (length data))
  ++ data
  ++ String.list_byte_of_string ")".

Definition frames (writes : list BytesWithDomain) : list byte :=
  concat (map (fun w => frame (TheDomain w) (Bytes w)) writes).

Lemma length_list_byte_of_string (str : string) :
  length (String.list_byte_of_string str) = String.length str.
Proof.
  unfold String.list_byte_of_string. rewrite length_map.
  induction str as [|c str IH]; simpl; [reflexivity|]. now rewrite IH.
Qed.

Lemma byte_of_Z_mod (a b : Z) :
  a mod 256 = b mod 256 -> byte_of_Z a = byte_of_Z b.
Proof. unfold byte_of_Z. now intros ->. Qed.

Lemma shiftr_uint64_byte (n j : Z) :
  0 <= j <= 56 ->
  Z.shiftr (uint64 n) j mod 256 = (n / 2 ^ j) mod 256.
Proof.
  intros Hj. unfold uint64. rewrite Z.shiftr_div_pow2 by lia.
  change 256 with (2 ^ 8). change 18446744073709551616 with (2 ^ 64).
  apply Z.bits_inj'. intros i Hi. destruct (Z.ltb_spec i 8).
  - rewrite !Z.mod_pow2_bits_low, !Z.div_pow2_bits by lia.
    now rewrite Z.mod_pow2_bits_low by lia.
  - now rewrite !Z.mod_pow2_bits_high by lia.
Qed.

Lemma PutUint64_u64_be (n : Z) : BigEndian_PutUint64 (uint64 n) = u64_be n.
Proof.
  unfold BigEndian_PutUint64, u64_be. simpl map.
  repeat (f_equal; [apply byte_of_Z_mod;
                    first [ apply (shiftr_uint64_byte n 56); lia
                          | apply (shiftr_uint64_byte n 48); lia
                          | apply (shiftr_uint64_byte n 40); lia
                          | apply (shiftr_uint64_byte n 32); lia
                          | apply (shiftr_uint64_byte n 24); lia
                          | apply (shiftr_uint64_byte n 16); lia
                          | apply (shiftr_uint64_byte n 8); lia ] |]).
  f_equal. apply byte_of_Z_mod.
  rewrite <- (Z.shiftr_0_r (uint64 n)).
  apply (shiftr_uint64_byte n 0). lia.
Qed.

Lemma writeBytesWithDomain_h (hash : Hash) (w : BytesWithDomain) :
  h (writeBytesWithDomain hash w) = h hash ++ frame (TheDomain w) (Bytes w).
Proof.
  unfold writeBytesWithDomain, frame. cbn [h].
  rewrite !PutUint64_u64_be, length_list_byte_of_string.
  rewrite <- !app_assoc. reflexivity.
Qed.

Lemma updateState_h (hash : Hash) (w : BytesWithDomain) :
  h (updateState hash w).1 = h hash.
Proof.
  unfold updateState. destruct (cbor_Marshal _) as [ss [e|]]; [reflexivity|].
  destruct (store_Import _ _) as [store' e]. reflexivity.
Qed.

(** The hasher after [WriteAny] depends on the inputs only, not on the store
    or the persisted state. *)
Lemma WriteAny_h (data : list Input) (hash1 hash2 : Hash) :
  (WriteAny hash1 data).2 = None ->
  exists writes,
    Forall2 (fun d w => toBeWritten d = inl w) data writes /\
    h (WriteAny hash1 data).1 = h hash1 ++ frames writes /\
    (WriteAny hash2 data).2 = None /\
    h (WriteAny hash2 data).1 = h hash2 ++ frames writes.
Proof.
  revert hash1 hash2. induction data as [|d data IH]; intros hash1 hash2; simpl.
  - intros _. exists []. unfold frames. simpl. rewrite !app_nil_r.
    repeat split. constructor.
  - destruct (toBeWritten d) as [w|e] eqn:Hd; [|discriminate].
    intros Hok.
    destruct (IH _ (writeBytesWithDomain (updateState hash2 w).1 w) Hok)
      as (writes & Hall & H1 & H2 & H3).
    exists (w :: writes). split; [constructor; assumption|].
    rewrite H1, H3, !writeBytesWithDomain_h, !updateState_h.
    unfold frames. cbn [map concat]. rewrite <- !app_assoc.
    split; [reflexivity|]. split; [exact H2 | reflexivity].
Qed.

(** C10: a transcript write of an accepted (domain, data) pair feeds the
    hasher exactly "(" || u64_be(len(domain)) || domain || u64_be(len(data))
    || data || ")"; so two transcripts with equal hashers (such as two fresh
    ones) that receive the same sequence of writes hold equal hashers and
    return the same sum(), which is 32 bytes long.  The BLAKE3 digest
    reader is assumed to deliver every requested byte. *)
Theorem transcript_framing_deterministic
    (hash1 hash2 : Hash) (data : list Input) :
  (forall input k,
     (Digest_ReadFull input k).2 = None /\
     length (Digest_ReadFull input k).1 = k) ->
  h hash1 = h hash2 ->
  (WriteAny hash1 data).2 = None ->
  (forall hash w,
     h (writeBytesWithDomain hash w)
     = h hash ++ frame (TheDomain w) (Bytes w)) /\
  exists writes,
    Forall2 (fun d w => toBeWritten d = inl w) data writes /\
    h (WriteAny hash1 data).1 = h hash1 ++ frames writes /\
    (WriteAny hash2 data).2 = None /\
    h (WriteAny hash2 data).1 = h (WriteAny hash1 data).1 /\
    Sum (WriteAny hash2 data).1 = Sum (WriteAny hash1 data).1 /\
    exists out,
      Sum (WriteAny hash1 data).1 = Return out /\ length out = 32%nat.
Proof.
  intros Hxof Hh Hok. split; [exact writeBytesWithDomain_h|].
  destruct (WriteAny_h data hash1 hash2 Hok) as (writes & Hall & H1 & H2 & H3).
  exists writes.
  assert (Heq : h (WriteAny hash2 data).1 = h (WriteAny hash1 data).1)
    by (rewrite H1, H3, Hh; reflexivity).
  repeat apply conj; try assumption.
  - unfold Sum. now rewrite Heq.
  - unfold Sum. destruct (Hxof (h (WriteAny hash1 data).1) DigestLengthBytes)
      as [He Hl].
    destruct (Digest_ReadFull _ _) as [out e]. simpl in *. subst e.
    exists out. split; [reflexivity | exact Hl].
Qed.

(** *** Restoring a transcript; the persisted state *)

(** The store's [Get] and CBOR unmarshalling of the state. *)
Variable store_Get : Store -> list byte * option error.
Variable cbor_Unmarshal : list byte -> list BytesWithDomain + error.

(** [Restore(store)]: the transcript (nil on failure) and the error. *)
Definition Restore (st : Store) : option Hash * option error :=
  let hash := mkHash [] [] st in
  let '(ss, err) := store_Get (store hash) in
  match err with
  | Some e => (None, Some e)
  | None =>
      match cbor_Unmarshal ss with
      | inr e => (None, Some e)
      | inl decoded =>
          let hash := mkHash (h hash) decoded (store hash) in
          let hash := foldl writeBytesWithDomain hash (state hash) in
          (Some hash, None)
      end
  end.

(** The hasher has been fed exactly the frames of the recorded state. *)
Definition hasher_matches_state (hash : Hash) : Prop :=
  h hash = frames (state hash).

Lemma frames_app (l1 l2 : list BytesWithDomain) :
  frames (l1 ++ l2) = frames l1 ++ frames l2.
Proof. unfold frames. now rewrite map_app, concat_app. Qed.

Lemma foldl_writeBytesWithDomain (writes : list BytesWithDomain) (hash : Hash) :
  h (foldl writeBytesWithDomain hash writes) = h hash ++ frames writes /\
  state (foldl writeBytesWithDomain hash writes) = state hash /\
  store (foldl writeBytesWithDomain hash writes) = store hash.
Proof.
  revert hash. induction writes as [|w writes IH]; intros hash.
  - simpl. unfold frames. simpl. now rewrite app_nil_r.
  - cbn [foldl]. destruct (IH (writeBytesWithDomain hash w)) as (-> & -> & ->).
    rewrite writeBytesWithDomain_h. unfold frames. cbn [map concat].
    now rewrite <- app_assoc.
Qed.

Lemma updateState_state (hash : Hash) (w : BytesWithDomain) :
  state (updateState hash w).1 = state hash ++ [w].
Proof.
  unfold updateState. destruct (cbor_Marshal _) as [ss [e|]]; [reflexivity|].
  destruct (store_Import _ _) as [store' e]. reflexivity.
Qed.

(** X25: A fresh transcript has fed its hasher exactly its (empty) state, and
    [WriteAny] keeps it so, also when it stops at a rejected input and
    whatever the store does. *)
Theorem WriteAny_hasher_matches_state (hash : Hash) (data : list Input) :
  hasher_matches_state hash ->
  hasher_matches_state (WriteAny hash data).1 /\
  forall store, hasher_matches_state (New store).
Proof.
  intros Hinv. split; [|reflexivity].
  revert hash Hinv. induction data as [|d data IH]; intros hash Hinv.
  - exact Hinv.
  - cbn [WriteAny]. destruct (toBeWritten d) as [w|e]; [|exact Hinv].
    apply IH. unfold hasher_matches_state in *.
    rewrite writeBytesWithDomain_h, updateState_h.
    unfold writeBytesWithDomain. cbn [state].
    rewrite updateState_state, frames_app, Hinv. unfold frames. simpl.
    now rewrite app_nil_r.
Qed.

(** X26: One call with several inputs is the same as successive calls, and
    [WriteAny] stops at the first rejected input: the inputs before it are
    written, its error is returned and the inputs after it are ignored. *)
Theorem WriteAny_app (hash : Hash) (l1 l2 : list Input) :
  WriteAny hash (l1 ++ l2)
  = match (WriteAny hash l1).2 with
    | Some e => WriteAny hash l1
    | None => WriteAny (WriteAny hash l1).1 l2
    end /\
  (forall bad e,
     (WriteAny hash l1).2 = None -> toBeWritten bad = inr e ->
     WriteAny hash (l1 ++ bad :: l2) = ((WriteAny hash l1).1, Some e)).
Proof.
  assert (Happ : forall l2 hash,
            WriteAny hash (l1 ++ l2)
            = match (WriteAny hash l1).2 with
              | Some e => WriteAny hash l1
              | None => WriteAny (WriteAny hash l1).1 l2
              end).
  { clear. intros l2. induction l1 as [|d l1 IH]; intros hash.
    - reflexivity.
    - cbn [app WriteAny]. destruct (toBeWritten d) as [w|e]; [|reflexivity].
      apply IH. }
  split; [apply Happ|].
  intros bad e Hok Hbad. rewrite Happ, Hok. cbn [WriteAny].
  now rewrite Hbad.
Qed.

(** X27: [Restore] fails with the store's or the decoder's error and no
    transcript; otherwise it returns a transcript on the same store whose
    state is the decoded one and whose hasher was fed its frames. *)
Theorem Restore_outcome (st0 : Store) :
  (forall ss e, store_Get st0 = (ss, Some e) -> Restore st0 = (None, Some e)) /\
  (forall ss e, store_Get st0 = (ss, None) -> cbor_Unmarshal ss = inr e ->
     Restore st0 = (None, Some e)) /\
  (forall ss st, store_Get st0 = (ss, None) -> cbor_Unmarshal ss = inl st ->
     exists hash,
       Restore st0 = (Some hash, None) /\
       h hash = frames st /\ state hash = st /\ store hash = st0 /\
       hasher_matches_state hash).
Proof.
  unfold Restore. cbn [store h]. repeat split.
  - intros ss e ->. reflexivity.
  - intros ss e -> ->. reflexivity.
  - intros ss st -> ->. eexists. split; [reflexivity|].
    destruct (foldl_writeBytesWithDomain st (mkHash [] st st0))
      as (Hh & Hs & Hst).
    cbn [state]. rewrite Hh, Hs, Hst. cbn [h state store app].
    unfold hasher_matches_state. rewrite Hh, Hs. auto.
Qed.

(** X28: Restart: if the store gives back the CBOR image of the state of a
    transcript whose hasher matches its state, the restored transcript has
    the same hasher input and so the same sum(). *)
Theorem Restore_restart (hash : Hash) (st0 : Store) (ss : list byte) :
  hasher_matches_state hash ->
  store_Get st0 = (ss, None) ->
  cbor_Unmarshal ss = inl (state hash) ->
  exists hash',
    Restore st0 = (Some hash', None) /\
    h hash' = h hash /\ state hash' = state hash /\
    Sum hash' = Sum hash.
Proof.
  intros Hinv Hget Hdec.
  destruct (Restore_outcome st0) as (_ & _ & H).
  destruct (H ss (state hash) Hget Hdec) as (hash' & Hr & Hh & Hs & _ & _).
  exists hash'. unfold hasher_matches_state in Hinv.
  assert (Heq : h hash' = h hash) by congruence.
  repeat split; try assumption. unfold Sum. now rewrite Heq.
Qed.

(** *** Unambiguous framing *)

Lemma digit_step (a b c : Z) :
  0 < c ->
  a / (c * 256) = b / (c * 256) ->
  (a / c) mod 256 = (b / c) mod 256 ->
  a / c = b / c.
Proof.
  intros Hc Hq Hr.
  rewrite (Z.div_mod (a / c) 256), (Z.div_mod (b / c) 256) by lia.
  rewrite !Z.div_div by lia. now rewrite Hq, Hr.
Qed.

Lemma u64_be_inj (a b : Z) :
  0 <= a < 2 ^ 64 -> 0 <= b < 2 ^ 64 -> u64_be a = u64_be b -> a = b.
Proof.
  intros Ha Hb H. unfold u64_be in H. cbn [map] in H.
  injection H as H7 H6 H5 H4 H3 H2 H1 H0.
  apply (f_equal Z_of_byte) in H7, H6, H5, H4, H3, H2, H1, H0.
  rewrite !Z_of_byte_of_Z in H7, H6, H5, H4, H3, H2, H1, H0.
  assert (E8 : a / (256 ^ 7 * 256) = b / (256 ^ 7 * 256)).
  { change (256 ^ 7 * 256) with (2 ^ 64). now rewrite !Z.div_small. }
  pose proof (digit_step a b (256 ^ 7) ltac:(lia) E8 H7) as E7.
  change (256 ^ 7) with (256 ^ 6 * 256) in E7.
  pose proof (digit_step a b (256 ^ 6) ltac:(lia) E7 H6) as E6.
  change (256 ^ 6) with (256 ^ 5 * 256) in E6.
  pose proof (digit_step a b (256 ^ 5) ltac:(lia) E6 H5) as E5.
  change (256 ^ 5) with (256 ^ 4 * 256) in E5.
  pose proof (digit_step a b (256 ^ 4) ltac:(lia) E5 H4) as E4.
  change (256 ^ 4) with (256 ^ 3 * 256) in E4.
  pose proof (digit_step a b (256 ^ 3) ltac:(lia) E4 H3) as E3.
  change (256 ^ 3) with (256 ^ 2 * 256) in E3.
  pose proof (digit_step a b (256 ^ 2) ltac:(lia) E3 H2) as E2.
  change (256 ^ 2) with (256 ^ 1 * 256) in E2.
  pose proof (digit_step a b (256 ^ 1) ltac:(lia) E2 H1) as E1.
  change (256 ^ 1) with (256 ^ 0 * 256) in E1.
  pose proof (digit_step a b (256 ^ 0) ltac:(lia) E1 H0) as E0.
  change (256 ^ 0) with 1 in E0. now rewrite !Z.div_1_r in E0.
Qed.

Lemma length_u64_be (a : Z) : length (u64_be a) = 8%nat.
Proof. reflexivity. Qed.

(** The lengths of a pair fit sixty-four bits (as every Go length does). *)
Definition fits64 (w : BytesWithDomain) : Prop :=
  Z.of_nat (String.length (TheDomain w)) < 2 ^ 64 /\
  Z.of_nat (length (Bytes w)) < 2 ^ 64.

Lemma list_byte_of_string_inj (s1 s2 : string) :
  String.list_byte_of_string s1 = String.list_byte_of_string s2 -> s1 = s2.
Proof.
  intros H. apply (f_equal String.string_of_list_byte) in H.
  now rewrite !String.string_of_list_byte_of_string in H.
Qed.

Lemma frame_app_inj (w1 w2 : BytesWithDomain) (r1 r2 : list byte) :
  fits64 w1 -> fits64 w2 ->
  frame (TheDomain w1) (Bytes w1) ++ r1 = frame (TheDomain w2) (Bytes w2) ++ r2 ->
  w1 = w2 /\ r1 = r2.
Proof.
  intros [Hd1 Hb1] [Hd2 Hb2]. unfold frame.
  rewrite !length_list_byte_of_string, <- !app_assoc.
  change (String.list_byte_of_string "(") with ["("%byte].
  change (String.list_byte_of_string ")") with [")"%byte].
  intros H. apply app_inj_1 in H as [_ H]; [|reflexivity].
  apply app_inj_1 in H as [Hld H]; [|reflexivity].
  apply u64_be_inj in Hld; [|lia..].
  apply app_inj_1 in H as [Hdom H];
    [|rewrite !length_list_byte_of_string; lia].
  apply list_byte_of_string_inj in Hdom.
  apply app_inj_1 in H as [Hlb H]; [|reflexivity].
  apply u64_be_inj in Hlb; [|lia..].
  apply app_inj_1 in H as [Hbytes H]; [|lia].
  apply app_inv_head in H. destruct w1, w2. simpl in *. subst. auto.
Qed.

Lemma frames_inj (ws1 ws2 : list BytesWithDomain) :
  Forall fits64 ws1 -> Forall fits64 ws2 ->
  frames ws1 = frames ws2 -> ws1 = ws2.
Proof.
  intros H1. revert ws2. induction H1 as [|w1 ws1 Hw1 _ IH];
    intros ws2 H2 H; destruct H2 as [|w2 ws2 Hw2 H2].
  - reflexivity.
  - unfold frames, frame in H. cbn in H. discriminate.
  - unfold frames, frame in H. cbn in H. discriminate.
  - unfold frames in H. cbn [map concat] in H.
    apply frame_app_inj in H as [-> H]; [|assumption..].
    f_equal. now apply IH.
Qed.

(** X29: The framing is unambiguous: two sequences of writes that leave the
    hasher of a transcript with the same input are the same sequence, pair
    by pair (domains and data), lengths fitting 64 bits. *)
Theorem writeBytesWithDomain_unambiguous
    (hash : Hash) (ws1 ws2 : list BytesWithDomain) :
  Forall fits64 ws1 -> Forall fits64 ws2 ->
  h (foldl writeBytesWithDomain hash ws1)
  = h (foldl writeBytesWithDomain hash ws2) ->
  ws1 = ws2.
Proof.
  intros H1 H2 H.
  destruct (foldl_writeBytesWithDomain ws1 hash) as (E1 & _).
  destruct (foldl_writeBytesWithDomain ws2 hash) as (E2 & _).
  rewrite E1, E2 in H. apply app_inv_head in H. now apply frames_inj.
Qed.

(** *** Pedersen parameters in the transcript *)

(** A [*pedersen.Parameters] handed to [WriteAny]: it takes the
    [WriterToWithDomain] case, where [WriteTo] runs on a fresh
    [bytes.Buffer]. *)
Definition ParametersInput (W : nat) (p : option Pedersen.Parameters) : Input :=
  let '(buf, (_, err)) := Pedersen.WriteTo W (list byte) Buffer_Write p [] in
  WriterToWithDomain "*pedersen.Parameters" Pedersen.Domain buf err.

(** X30: Hashing Pedersen parameters feeds the hasher the frame with domain
    "Pedersen Parameters" around N, s and t in fixed width, and records the
    pair in the state; nil parameters are refused with an error and leave
    the transcript as it was. *)
Theorem WriteAny_Parameters (W : nat) (hash : Hash) (p : Pedersen.Parameters) :
  let data := Saferith.FillBytes W (Pedersen.n p)
              ++ Saferith.FillBytes W (Pedersen.s p)
              ++ Saferith.FillBytes W (Pedersen.t p) in
  (WriteAny hash [ParametersInput W (Some p)]).2 = None /\
  h (WriteAny hash [ParametersInput W (Some p)]).1
  = h hash ++ frame "Pedersen Parameters" data /\
  state (WriteAny hash [ParametersInput W (Some p)]).1
  = state hash ++ [mkBytesWithDomain "Pedersen Parameters" data] /\
  WriteAny hash [ParametersInput W None]
  = (hash, Some "hash.WriteAny: *pedersen.Parameters: unexpected EOF"%string).
Proof.
  intros data. unfold ParametersInput.
  destruct (Pedersen.WriteTo_Buffer W p []) as (-> & _ & ->).
  cbn [WriteAny toBeWritten app snd fst].
  rewrite writeBytesWithDomain_h, updateState_h.
  unfold writeBytesWithDomain. cbn [state]. rewrite updateState_state.
  repeat split.
Qed.

End Hash.

(** *** A concrete transcript: a toy digest stream and an in-memory store *)

Module Toy.

Definition digest (input : list byte) (k : nat) : list byte * option error :=
  (replicate k (byte_of_Z (Z.of_nat (length input))), None).

Definition import (st : list (list byte)) (ss : list byte)
  : list (list byte) * option error := (ss :: st, None).

Definition marshal (st : list BytesWithDomain) : list byte * option error :=
  (concat (map Bytes st), None).

Definition gob (z : Z) : list byte := [byte_of_Z z].

Definition write := WriteAny (list (list byte)) import marshal gob.

Definition sum := Sum digest (list (list byte)).

(** Two fresh transcripts on different stores. *)
Definition fresh1 : Hash (list (list byte)) := New _ [].
Definition fresh2 : Hash (list (list byte)) := New _ [[x00]].

Definition inputs : list Input :=
  [ByteSlice (Some [x01; x02]); BigInt (Some 5)].

End Toy.

Lemma transcript_framing_deterministic_witness :
  (Toy.write Toy.fresh1 Toy.inputs).2 = None /\
  h _ (Toy.write Toy.fresh1 Toy.inputs).1
  = frame "[]byte" [x01; x02] ++ frame "big.Int" [x05] /\
  Toy.sum (Toy.write Toy.fresh2 Toy.inputs).1
  = Toy.sum (Toy.write Toy.fresh1 Toy.inputs).1.
Proof.
  split; [reflexivity|].
  pose proof (transcript_framing_deterministic Toy.digest (list (list byte))
                Toy.import Toy.marshal Toy.gob Toy.fresh1 Toy.fresh2
                Toy.inputs) as H.
  destruct H as (_ & writes & _ & _ & _ & _ & Hsum & _).
  - intros input k. split; [reflexivity|]. apply length_replicate.
  - reflexivity.
  - reflexivity.
  - split; [reflexivity | exact Hsum].
Defined.

(** *** The concrete transcript, continued *)

Module More.

Definition get (st : list (list byte)) : list byte * option error :=
  match st with
  | ss :: _ => (ss, None)
  | [] => ([], Some "empty store"%string)
  end.

(** A toy decoder: the image is read as a single raw-bytes entry. *)
Definition unmarshal (ss : list byte) : list BytesWithDomain + error :=
  inl [mkBytesWithDomain "[]byte" ss].

Definition restore := Restore (list (list byte)) get unmarshal.

(** The transcript after one raw write of 01 02. *)
Definition written : Hash (list (list byte)) :=
  (Toy.write Toy.fresh1 [ByteSlice (Some [x01; x02])]).1.

End More.

Lemma WriteAny_hasher_matches_state_witness :
  hasher_matches_state _ (Toy.write Toy.fresh1 Toy.inputs).1.
Proof.
  apply (WriteAny_hasher_matches_state (list (list byte)) Toy.import
           Toy.marshal Toy.gob Toy.fresh1 Toy.inputs).
  reflexivity.
Defined.

Lemma Restore_restart_witness :
  exists hash',
    More.restore (store _ More.written) = (Some hash', None) /\
    Toy.sum hash' = Toy.sum More.written.
Proof.
  destruct (Restore_restart Toy.digest (list (list byte)) More.get
              More.unmarshal More.written (store _ More.written) [x01; x02]
              eq_refl eq_refl eq_refl) as (hash' & Hr & _ & _ & Hsum).
  exists hash'. split; [exact Hr | exact Hsum].
Defined.

Lemma writeBytesWithDomain_unambiguous_witness :
  [mkBytesWithDomain "ab" [x01]] = [mkBytesWithDomain "ab" [x01]].
Proof.
  apply (writeBytesWithDomain_unambiguous (list (list byte)) Toy.fresh1
           [mkBytesWithDomain "ab" [x01]] [mkBytesWithDomain "ab" [x01]]).
  - repeat constructor; vm_compute; reflexivity.
  - repeat constructor; vm_compute; reflexivity.
  - reflexivity.
Defined.

End Transcript.
